(** * song_ranking.py: the ranked list behind the Top 2000 page

    A shallow embedding of [src/song_ranking.py].  Python dictionaries are
    finite maps from field names to values, exceptions are an explicit
    [result], the objects shared between [st.session_state.ranked_songs] and
    [st.session_state.suggestions] live in a heap of dictionaries addressed by
    location, and [rankings.json] is a field of the session state. *)

From Stdlib Require Import ZArith Ascii String List Sorted Permutation Lia.
From stdpp Require Import base decidable option list gmap strings sorting pretty.

Local Open Scope string_scope.

(** ** Values, dictionaries, exceptions *)

(** The values the program stores under a key of a song dictionary: [None],
    an integer, or a string. *)
Inductive value :=
  | VNone
  | VInt (z : Z)
  | VStr (s : string).

#[global] Instance value_eq_dec : EqDecision value.
Proof. solve_decision. Defined.

Definition value_enc (v : value) : unit + (Z + string) :=
  match v with
  | VNone => inl tt
  | VInt z => inr (inl z)
  | VStr s => inr (inr s)
  end.

Definition value_dec (x : unit + (Z + string)) : value :=
  match x with
  | inl _ => VNone
  | inr (inl z) => VInt z
  | inr (inr s) => VStr s
  end.

#[global] Instance value_countable : Countable value.
Proof.
  apply (inj_countable' value_enc value_dec).
  intros []; reflexivity.
Defined.

(** A song is a Python [dict] with string keys. *)
Abbreviation song := (gmap string value).

Inductive exn :=
  | KeyError (key : string)
  | IndexError
  | OverflowError
  | TypeError
  | ValueError (msg : string)
  | AttributeError (attr : string)
  | ProviderError (msg : string).

(** [str(e)] *)
Definition exn_str (e : exn) : string :=
  match e with
  | KeyError k => "'" ++ k ++ "'"
  | IndexError => "list index out of range"
  | OverflowError => "Python int too large to convert to C ssize_t"
  | TypeError => "object is not subscriptable"
  | ValueError m => m
  | AttributeError a => "st.session_state has no attribute " ++ a
  | ProviderError m => m
  end.

Inductive result (A : Type) :=
  | Ok (a : A)
  | Raise (e : exn).
Arguments Ok {A} a.
Arguments Raise {A} e.

#[global] Instance result_ret : MRet result := fun A a => Ok a.
#[global] Instance result_bind : MBind result := fun A B f m =>
  match m with
  | Ok a => f a
  | Raise e => Raise e
  end.

(** [f(x) for x in l], stopping at the first exception. *)
Fixpoint for_each {A B} (f : A -> result B) (l : list A) : result (list B) :=
  match l with
  | [] => Ok []
  | x :: l' => y ← f x; ys ← for_each f l'; Ok (y :: ys)
  end.

(** [d[k]] *)
Definition get_item (k : string) (d : song) : result value :=
  match d !! k with
  | Some v => Ok v
  | None => Raise (KeyError k)
  end.

(** [l[0]] *)
Definition first_item {A} (l : list A) : result A :=
  match l with
  | x :: _ => Ok x
  | [] => Raise IndexError
  end.

(** ** Raw catalog items

    What the catalog provider returns for a track, with the fields the
    program reads.  [release_date] may be missing from the album, or hold
    something that is not a string. *)
Record artist := { artist_name : string }.
Record image := { url : string }.
Record album := { images : list image; release_date : option value }.
Record raw_track := {
  id : string;
  name : string;
  artists : list artist;
  track_album : album
}.
Record played_item := { played_track : raw_track; played_at : string }.

(** The client [sp]: the answer of each of its four calls. *)
Record spotify := {
  current_user_top_tracks : result (list raw_track);
  current_user_recently_played : result (list played_item);
  search : string -> result (list raw_track);
  track : value -> result raw_track
}.

(** [track['album']['release_date'][:4]] *)
Definition release_year_of (al : album) : result value :=
  match release_date al with
  | None => Raise (KeyError "release_date")
  | Some (VStr d) => Ok (VStr (substring 0 4 d))
  | Some _ => Raise TypeError
  end.

(** [track['album']['images'][0]['url'] if track['album']['images'] else None] *)
Definition image_url_of (al : album) : value :=
  match images al with
  | i :: _ => VStr (url i)
  | [] => VNone
  end.

(** [f"{track['name']} - {track['artists'][0]['name']}"] *)
Definition full_name_of (n a : string) : string := n ++ " - " ++ a.

(** ** search_spotify *)

(** The dictionary built for one search hit (lines 71-78). *)
Definition search_entry (t : raw_track) : result song :=
  a ← first_item (artists t);
  y ← release_year_of (track_album t);
  Ok (<["id" := VStr (id t)]>
      (<["name" := VStr (name t)]>
      (<["artist" := VStr (artist_name a)]>
      (<["full_name" := VStr (full_name_of (name t) (artist_name a))]>
      (<["image_url" := image_url_of (track_album t)]>
      (<["release_year" := y]> ∅)))))).

Definition search_spotify (sp : spotify) (query : string) : result (list song) :=
  if decide (query = "") then Ok []
  else results ← search sp query; for_each search_entry results.

(** ** get_next_available_rank *)

(** The [for rank in range(1, 2001)] loop over the remaining candidates. *)
Fixpoint first_free (current_ranks : gset value) (candidates : list Z) : Z :=
  match candidates with
  | [] => 2000
  | rank :: rest =>
      if decide (VInt rank ∈ current_ranks) then first_free current_ranks rest
      else rank
  end.

Definition get_next_available_rank (ranked_songs : list song) : result Z :=
  match ranked_songs with
  | [] => Ok 1%Z
  | _ =>
      ranks ← for_each (get_item "rank") ranked_songs;
      Ok (first_free (list_to_set ranks) (seqZ 1 2000))
  end.

(** ** get_spotify_suggestions *)

(** Code that prints: the lines printed so far are threaded through, and an
    exception keeps what was printed before it. *)
Definition io (A : Type) : Type := list string -> result A * list string.

#[global] Instance io_ret : MRet io := fun A a out => (Ok a, out).
#[global] Instance io_bind : MBind io := fun A B f m out =>
  match m out with
  | (Ok a, out') => f a out'
  | (Raise e, out') => (Raise e, out')
  end.

Definition print (line : string) : io unit := fun out => (Ok tt, (out ++ [line])%list).
Definition lift {A} (r : result A) : io A := fun out => (r, out).

(** [try: body / except Exception as e: handler(e)] *)
Definition try_except {A} (body : io A) (handler : exn -> io A) : io A :=
  fun out =>
    match body out with
    | (Ok a, out') => (Ok a, out')
    | (Raise e, out') => handler e out'
    end.

(** What a run printed and what it returned. *)
Definition run {A} (m : io A) : result A * list string := m [].

Definition year_ms : Z := 365 * 24 * 60 * 60 * 1000.

Section Suggestions.

(** [int(datetime.strptime(s, '%Y-%m-%dT%H:%M:%S.%fZ').timestamp() * 1000)]:
    the library's parser, which raises ValueError on a string of another
    shape.  Its value depends on the time zone of the machine; what it is
    in terms of the instant the stamp denotes is [local_strptime_ms]. *)
Variable strptime_ms : string -> result Z.

(** Lines 35-40: the plays of the last year, counted per track id. *)
Fixpoint count_plays (year_ago : Z) (recent_tracks : list played_item)
    (play_counts : gmap string Z) : result (gmap string Z) :=
  match recent_tracks with
  | [] => Ok play_counts
  | item :: rest =>
      let track_id := id (played_track item) in
      at_ms ← strptime_ms (played_at item);
      count_plays year_ago rest
        (if (year_ago <? at_ms)%Z
         then <[track_id := (default 0 (play_counts !! track_id) + 1)%Z]> play_counts
         else play_counts)
  end.

(** The dictionary appended for one top track (lines 47-57). *)
Definition suggestion_entry (play_counts : gmap string Z) (t : raw_track)
    : result song :=
  let image_url := image_url_of (track_album t) in
  release_year ← release_year_of (track_album t);
  a ← first_item (artists t);
  Ok (<["id" := VStr (id t)]>
      (<["name" := VStr (name t)]>
      (<["artist" := VStr (artist_name a)]>
      (<["full_name" := VStr (full_name_of (name t) (artist_name a))]>
      (<["image_url" := image_url]>
      (<["release_year" := release_year]>
      (<["play_count" := VInt (default 0%Z (play_counts !! id t))]> ∅))))))).

(** Lines 43-58: the loop over the top tracks. *)
Fixpoint collect (play_counts : gmap string Z) (top_tracks : list raw_track)
    (seen_ids : gset string) (suggestions : list song) : result (list song) :=
  match top_tracks with
  | [] => Ok suggestions
  | t :: rest =>
      if decide (id t ∈ seen_ids) then collect play_counts rest seen_ids suggestions
      else
        entry ← suggestion_entry play_counts t;
        collect play_counts rest ({[id t]} ∪ seen_ids) (suggestions ++ [entry])%list
  end.

(** [now] is [int(time.time() * 1000)]. *)
Definition get_spotify_suggestions_io (sp : spotify) (now : Z) : io (list song) :=
  try_except
    (_ ← print "Fetching top tracks...";
     top_tracks ← lift (current_user_top_tracks sp);
     _ ← print "Fetching recent tracks...";
     recent_tracks ← lift (current_user_recently_played sp);
     let year_ago := (now - year_ms)%Z in
     play_counts ← lift (count_plays year_ago recent_tracks ∅);
     lift (collect play_counts top_tracks ∅ []))
    (fun e =>
       _ ← print ("Error getting suggestions: " ++ exn_str e);
       mret []).

Definition get_spotify_suggestions (sp : spotify) (now : Z) : list song :=
  match run (get_spotify_suggestions_io sp now) with
  | (Ok suggestions, _) => suggestions
  | (Raise _, _) => []
  end.

End Suggestions.

(** ** save_rankings, load_rankings

    [rankings.json] is modelled by the array it holds: [None] when the file
    does not exist, [Some rankings] for the array of dictionaries that
    [json.load] reads and [json.dump] writes. *)
Definition save_rankings (rankings : list song) : option (list song) :=
  Some rankings.

(** [st.session_state.spotify], absent until [main] has set it. *)
Definition session_spotify (sp : option spotify) : result spotify :=
  match sp with
  | Some c => Ok c
  | None => Raise (AttributeError "spotify")
  end.

(** Lines 136-141 for one loaded song. *)
Definition backfill (sp : option spotify) (s : song) : song :=
  match s !! "release_year" with
  | Some _ => s
  | None =>
      match (c ← session_spotify sp;
             i ← get_item "id" s;
             t ← track c i;
             release_year_of (track_album t)) with
      | Ok y => <["release_year" := y]> s
      | Raise _ => <["release_year" := VStr "N/A"]> s
      end
  end.

Definition load_rankings (sp : option spotify) (file : option (list song))
    : list song :=
  match file with
  | Some rankings => backfill sp <$> rankings
  | None => []
  end.

(** ** sorted(songs, key=lambda x: x['rank'])

    [sorted] is stable: it computes every key first, then orders the items by
    key and keeps items with equal keys in their order of arrival.  Ranks are
    integers wherever the program assigns them; a rank of another type is a
    TypeError here. *)
Fixpoint insert_by_key {A} (x : Z * A) (l : list (Z * A)) : list (Z * A) :=
  match l with
  | [] => [x]
  | y :: l' => if (x.1 <=? y.1)%Z then x :: y :: l' else y :: insert_by_key x l'
  end.

Fixpoint sort_by_key {A} (l : list (Z * A)) : list (Z * A) :=
  match l with
  | [] => []
  | x :: l' => insert_by_key x (sort_by_key l')
  end.

Definition sorted_by {A} (key : A -> result Z) (l : list A) : result (list A) :=
  decorated ← for_each (fun x => k ← key x; Ok (k, x)) l;
  Ok ((sort_by_key decorated).*2).

(** [x['rank']] as a sort key *)
Definition rank_key (s : song) : result Z :=
  v ← get_item "rank" s;
  match v with
  | VInt z => Ok z
  | _ => Raise TypeError
  end.

(** ** The session state and the handlers of [main]

    The dictionaries of a session are objects: the one appended to
    [ranked_songs] by an Add button of the suggestion list is the very
    object that stays in [suggestions], and [song['rank'] = ...] writes to
    it in place.  [heap] holds the objects, the two lists hold locations. *)
Record session := {
  heap : list song;
  ranked_songs : list nat;
  suggestions : list nat;
  rankings_json : option (list song);
  stdout : list string
}.

Definition deref (h : list song) (l : nat) : song := default ∅ (h !! l).
Definition songs_at (h : list song) (ls : list nat) : list song := deref h <$> ls.

(** The ranking as the page shows it. *)
Definition ranking (s : session) : list song := songs_at (heap s) (ranked_songs s).

(** [ls.remove(x)]: drops the first item equal to [x]. *)
Fixpoint list_remove (h : list song) (x : song) (ls : list nat) : result (list nat) :=
  match ls with
  | [] => Raise (ValueError "list.remove(x): x not in list")
  | l :: ls' =>
      if decide (deref h l = x) then Ok ls'
      else rest ← list_remove h x ls'; Ok (l :: rest)
  end.

(** Lines 270-277: the number input of row [idx] returned [new_rank]. *)
Definition edit_rank (idx : nat) (new_rank : Z) (s : session) : result session :=
  match ranked_songs s !! idx with
  | None => Ok s
  | Some l =>
      old ← get_item "rank" (deref (heap s) l);
      if decide (VInt new_rank = old) then Ok s
      else
        let h := <[l := <["rank" := VInt new_rank]> (deref (heap s) l)]> (heap s) in
        sorted ← sorted_by (fun l' => rank_key (deref h l')) (ranked_songs s);
        Ok {| heap := h;
              ranked_songs := sorted;
              suggestions := suggestions s;
              rankings_json := save_rankings (songs_at h sorted);
              stdout := stdout s |}
  end.

(** Lines 279-282: the Remove button of row [idx]. *)
Definition remove_row (idx : nat) (s : session) : result session :=
  match ranked_songs s !! idx with
  | None => Ok s
  | Some l =>
      rest ← list_remove (heap s) (deref (heap s) l) (ranked_songs s);
      Ok {| heap := heap s;
            ranked_songs := rest;
            suggestions := suggestions s;
            rankings_json := save_rankings (songs_at (heap s) rest);
            stdout := stdout s |}
  end.

(** Lines 309-316 and 348-355, the same code under both Add buttons: [l] is
    the object [song], [rank] the value of its number input. *)
Definition add_song (l : nat) (rank : Z) (s : session) : result session :=
  if decide (deref (heap s) l ∈ ranking s) then Ok s
  else
    let h := <[l := <["rank" := VInt rank]> (deref (heap s) l)]> (heap s) in
    sorted ← sorted_by (fun l' => rank_key (deref h l')) (ranked_songs s ++ [l])%list;
    Ok {| heap := h;
          ranked_songs := sorted;
          suggestions := suggestions s;
          rankings_json := save_rankings (songs_at h sorted);
          stdout := stdout s |}.

(** Lines 288-318: the Add button of search hit [idx].  Every run of the
    script calls [search_spotify] again, so the hits are new objects. *)
Definition add_search_result (sp : spotify) (query : string) (idx : nat) (rank : Z)
    (s : session) : result session :=
  search_results ← search_spotify sp query;
  match search_results !! idx with
  | None => Ok s
  | Some _ =>
      add_song (length (heap s) + idx) rank
        {| heap := (heap s ++ search_results)%list;
           ranked_songs := ranked_songs s;
           suggestions := suggestions s;
           rankings_json := rankings_json s;
           stdout := stdout s |}
  end.

(** Lines 330-357: the Add button of suggestion [idx]. *)
Definition add_suggestion (idx : nat) (rank : Z) (s : session) : result session :=
  match suggestions s !! idx with
  | None => Ok s
  | Some l => add_song l rank s
  end.

Section Main.

Variable strptime_ms : string -> result Z.

(** Lines 322-328: the Load Suggestions button. *)
Definition load_suggestions (sp : spotify) (now : Z) (s : session) : session :=
  let '(r, out) := run (get_spotify_suggestions_io strptime_ms sp now) in
  let found := match r with Ok l => l | Raise _ => [] end in
  match found with
  | [] =>
      {| heap := heap s;
         ranked_songs := ranked_songs s;
         suggestions := suggestions s;
         rankings_json := rankings_json s;
         stdout := (stdout s ++ out)%list |}
  | _ =>
      {| heap := (heap s ++ found)%list;
         ranked_songs := ranked_songs s;
         suggestions := seq (length (heap s)) (length found);
         rankings_json := rankings_json s;
         stdout := (stdout s ++ out)%list |}
  end.

(** Lines 238-247 in a new session: [load_rankings] runs before
    [st.session_state.spotify] is set. *)
Definition new_session (file : option (list song)) : session :=
  let loaded := load_rankings None file in
  {| heap := loaded;
     ranked_songs := seq 0 (length loaded);
     suggestions := [];
     rankings_json := file;
     stdout := [] |}.

Inductive event :=
  | EditRank (idx : nat) (new_rank : Z)
  | RemoveRow (idx : nat)
  | AddSearchResult (sp : spotify) (query : string) (idx : nat) (rank : Z)
  | LoadSuggestions (sp : spotify) (now : Z)
  | AddSuggestion (idx : nat) (rank : Z)
  | Restart.

(** The state change of one user action: the code under the widget that
    fired, in a run that reached it.  [AddSearchResult] takes in the search
    of line 290 that lists its hits; the same search, which the script
    repeats in every run while the search box holds a query, is left out
    of the other actions, so that a run that stops there is not a step. *)
Definition handle (ev : event) (s : session) : result session :=
  match ev with
  | EditRank idx new_rank => edit_rank idx new_rank s
  | RemoveRow idx => remove_row idx s
  | AddSearchResult sp query idx rank => add_search_result sp query idx rank s
  | LoadSuggestions sp now => Ok (load_suggestions sp now s)
  | AddSuggestion idx rank => add_suggestion idx rank s
  | Restart => Ok (new_session (rankings_json s))
  end.

(** The sessions the program can be in: it starts without a rankings file,
    and every run that ends without an exception leads to the next one. *)
Inductive reachable : session -> Prop :=
  | reach_start : reachable (new_session None)
  | reach_step ev s s' :
      reachable s -> handle ev s = Ok s' -> reachable s'.

End Main.

(** ** What the claims are stated with *)

(** [a]'s rank is an integer no greater than [b]'s. *)
Definition rank_le (a b : song) : Prop :=
  exists ra rb : Z,
    a !! "rank" = Some (VInt ra) /\ b !! "rank" = Some (VInt rb) /\ (ra <= rb)%Z.

(** Ascending by rank: every entry's rank is at most that of every later one. *)
Definition sorted_by_rank (l : list song) : Prop := StronglySorted rank_le l.

(** The entries of [l] that hold rank [k]. *)
Definition rank_taken (l : list song) (k : Z) : Prop :=
  exists s : song, s ∈ l /\ s !! "rank" = Some (VInt k).


(** The id a song dictionary carries. *)
Definition song_id (s : song) : string :=
  match s !! "id" with
  | Some (VStr i) => i
  | _ => ""
  end.

(** [l.index(x)]: the position of the first occurrence. *)
Fixpoint index_of (x : string) (l : list string) : option nat :=
  match l with
  | [] => None
  | y :: l' => if decide (y = x) then Some 0 else S <$> index_of x l'
  end.

Section SuggestionFacts.

Variable strptime_ms : string -> result Z.

(** A recently played item counts when its timestamp, as [strptime_ms]
    gives it, is later than 365 days before [now], both in milliseconds.
    With the instants of the stamps for [strptime_ms] this is the window
    the specification words; with the clock of line 38 it is the window
    the program has. *)
Definition in_last_year (now : Z) (item : played_item) : bool :=
  match strptime_ms (played_at item) with
  | Ok at_ms => (now - year_ms <? at_ms)%Z
  | Raise _ => false
  end.

(** The number of counted plays of track [tid]. *)
Definition plays_in_last_year (now : Z) (tid : string)
    (recent_tracks : list played_item) : nat :=
  length (filter (fun item => id (played_track item) = tid /\
                              in_last_year now item = true) recent_tracks).

End SuggestionFacts.

(** The top tracks the loop of [collect] turns into suggestions. *)
Fixpoint kept (seen_ids : gset string) (top_tracks : list raw_track) : list raw_track :=
  match top_tracks with
  | [] => []
  | t :: rest =>
      if decide (id t ∈ seen_ids) then kept seen_ids rest
      else t :: kept ({[id t]} ∪ seen_ids) rest
  end.


(** Deduplication by id as the specification words it: of the entries with
    one id the first is kept, and what is kept stays in the order of the
    list. *)
Fixpoint stable_dedup (l : list string) : list string :=
  match l with
  | [] => []
  | x :: rest => x :: filter (fun y => y <> x) (stable_dedup rest)
  end.

(** The order [sort_by_key] works with. *)
Definition key_le {A} (p q : Z * A) : Prop := (p.1 <= q.1)%Z.

(** Every location of [ls] holds an object of [h]. *)
Definition valid_locs (h : list song) (ls : list nat) : Prop :=
  Forall (fun l => l < length h) ls.

(** What every run of the script keeps true. *)
Definition session_inv (s : session) : Prop :=
  sorted_by_rank (ranking s) /\
  valid_locs (heap s) (ranked_songs s) /\
  valid_locs (heap s) (suggestions s) /\
  forall file, rankings_json s = Some file -> sorted_by_rank file.


(** [a]'s key is at most [b]'s, and neither raises. *)
Definition by_key {A} (key : A -> result Z) (a b : A) : Prop :=
  exists ka kb : Z, key a = Ok ka /\ key b = Ok kb /\ (ka <= kb)%Z.


(** ** Sample data *)

Definition never_gonna : raw_track :=
  {| id := "4uLU6hMCjMI75M1A2tKUQC";
     name := "Never Gonna Give You Up";
     artists := [{| artist_name := "Rick Astley" |}];
     track_album := {| images := [{| url := "https://i.scdn.co/image/ab67" |}];
                       release_date := Some (VStr "1987-11-12") |} |}.

Definition africa : raw_track :=
  {| id := "2374M0fQpWi3dLnB54qaLX";
     name := "Africa";
     artists := [{| artist_name := "TOTO" |}];
     track_album := {| images := [];
                       release_date := Some (VStr "1982-04-08") |} |}.

(** A track whose album carries no release date. *)
Definition undated : raw_track :=
  {| id := "0000000000000000000000";
     name := "Demo";
     artists := [{| artist_name := "Unknown" |}];
     track_album := {| images := []; release_date := None |} |}.

(** A track whose release date is shorter than a year. *)
Definition short_dated : raw_track :=
  {| id := "1111111111111111111111";
     name := "Demo";
     artists := [{| artist_name := "Unknown" |}];
     track_album := {| images := []; release_date := Some (VStr "19") |} |}.

(** The parser on the timestamps of the samples: 1 January 2026 and
    1 January 2024, midnight. *)
Definition sample_strptime_ms (s : string) : result Z :=
  if decide (s = "2026-01-01T00:00:00.000Z") then Ok 1767225600000%Z
  else if decide (s = "2024-01-01T00:00:00.000Z") then Ok 1704067200000%Z
  else Raise (ValueError "time data does not match format").

(** 1 March 2026, midnight. *)
Definition sample_now : Z := 1772323200000.

Definition sample_recent : list played_item :=
  [ {| played_track := africa; played_at := "2026-01-01T00:00:00.000Z" |};
    {| played_track := africa; played_at := "2024-01-01T00:00:00.000Z" |};
    {| played_track := never_gonna; played_at := "2026-01-01T00:00:00.000Z" |};
    {| played_track := africa; played_at := "2026-01-01T00:00:00.000Z" |} ].

Definition sample_top : list raw_track := [africa; never_gonna; africa].

(** A client whose calls all answer. *)
Definition sample_sp : spotify :=
  {| current_user_top_tracks := Ok sample_top;
     current_user_recently_played := Ok sample_recent;
     search := fun _ => Ok [never_gonna; africa];
     track := fun _ => Ok never_gonna |}.

(** A client whose calls all fail. *)
Definition offline_sp : spotify :=
  {| current_user_top_tracks := Raise (ProviderError "HTTP 503");
     current_user_recently_played := Raise (ProviderError "HTTP 503");
     search := fun _ => Raise (ProviderError "HTTP 503");
     track := fun _ => Raise (ProviderError "HTTP 503") |}.

(** The session after the events of [evs], or the session at which one
    of them raised. *)
Fixpoint replay (strptime_ms : string -> result Z) (evs : list event)
    (s : session) : session :=
  match evs with
  | [] => s
  | ev :: rest =>
      match handle strptime_ms ev s with
      | Ok s' => replay strptime_ms rest s'
      | Raise _ => s
      end
  end.

(** An entry as an older version of the program saved it: no release year. *)
Definition old_entry : song :=
  <["id" := VStr "2374M0fQpWi3dLnB54qaLX"]>
  (<["name" := VStr "Africa"]>
  (<["artist" := VStr "TOTO"]>
  (<["full_name" := VStr "Africa - TOTO"]>
  (<["image_url" := VNone]>
  (<["rank" := VInt 1]> ∅))))).

(** The first search hit of [sample_sp], ranked first. *)
Definition never_gonna_ranked : song :=
  <["id" := VStr "4uLU6hMCjMI75M1A2tKUQC"]>
  (<["name" := VStr "Never Gonna Give You Up"]>
  (<["artist" := VStr "Rick Astley"]>
  (<["full_name" := VStr "Never Gonna Give You Up - Rick Astley"]>
  (<["image_url" := VStr "https://i.scdn.co/image/ab67"]>
  (<["release_year" := VStr "1987"]>
  (<["rank" := VInt 1]> ∅)))))).

(** A store with the ranks 1, 2 and 4. *)
Definition ranks_1_2_4 : list song :=
  [ {["rank" := VInt 1]}; {["rank" := VInt 2]}; {["rank" := VInt 4]} ].

(** The suggestion [sample_sp] yields for [africa] at [sample_now]. *)
Definition africa_suggestion : song :=
  <["id" := VStr "2374M0fQpWi3dLnB54qaLX"]>
  (<["name" := VStr "Africa"]>
  (<["artist" := VStr "TOTO"]>
  (<["full_name" := VStr "Africa - TOTO"]>
  (<["image_url" := VNone]>
  (<["release_year" := VStr "1982"]>
  (<["play_count" := VInt 2]> ∅)))))).

(** A client that answers everything but the single-track lookup. *)
Definition no_lookup_sp : spotify :=
  {| current_user_top_tracks := Ok sample_top;
     current_user_recently_played := Ok sample_recent;
     search := fun _ => Ok [never_gonna; africa];
     track := fun _ => Raise (ProviderError "HTTP 404") |}.

(** A user session: suggestions, adds, a rank edit, a removal, a restart. *)
Definition sample_events : list event :=
  [ LoadSuggestions sample_sp sample_now;
    AddSuggestion 0 5; AddSuggestion 1 2; AddSuggestion 0 7;
    AddSearchResult sample_sp "africa" 1 3;
    EditRank 0 9; RemoveRow 1; Restart;
    AddSearchResult sample_sp "never" 0 1 ].

(** ** move_to_position *)

(** The position a Python index [i] denotes in a list of [len] items, as
    [list.pop] reads it: negative indices count from the end. *)
Definition py_index (len : nat) (i : Z) : option nat :=
  if decide (0 <= i < Z.of_nat len)%Z then Some (Z.to_nat i)
  else if decide (- Z.of_nat len <= i < 0)%Z then Some (Z.to_nat (Z.of_nat len + i))
  else None.

(** The largest value of a C [ssize_t], on a 64-bit build. *)
Definition ssize_t_max : Z := 2 ^ 63 - 1.

(** [i] can be converted to a C [ssize_t]. *)
Definition fits_ssize_t (i : Z) : Prop := (- ssize_t_max - 1 <= i <= ssize_t_max)%Z.

(** [l.pop(i)]: the item and the list left.  An index that is no position
    of the list raises IndexError when it fits a C [ssize_t] and
    OverflowError when it does not; a list is never that long, so an index
    that is a position always fits. *)
Definition list_pop {A} (l : list A) (i : Z) : result (A * list A) :=
  match py_index (length l) i with
  | Some n =>
      match l !! n with
      | Some x => Ok (x, delete n l)
      | None => Raise IndexError
      end
  | None =>
      if decide (fits_ssize_t i) then Raise IndexError else Raise OverflowError
  end.

(** [l.insert(i, x)], for an index that fits a C [ssize_t]: an index
    beyond either end is clamped to it. *)
Definition list_insert_at {A} (l : list A) (i : Z) (x : A) : list A :=
  let n :=
    if decide (i < 0)%Z then Z.to_nat (Z.max 0 (Z.of_nat (length l) + i))
    else Z.to_nat (Z.min i (Z.of_nat (length l))) in
  (take n l ++ x :: drop n l)%list.

(** Lines 100-106: the list after the call and the value returned. *)
Definition move_to_position {A} (songs : list A) (old_idx new_idx : Z)
    : result (list A * bool) :=
  if decide (0 <= new_idx < Z.of_nat (length songs))%Z then
    popped ← list_pop songs old_idx;
    Ok (list_insert_at popped.2 new_idx popped.1, true)
  else Ok (songs, false).

(** ** display_song *)

(** [str(v)] as an f-string prints a value. *)
Definition py_str (v : value) : string :=
  match v with
  | VNone => "None"
  | VInt z => pretty z
  | VStr s => s
  end.

(** The double quote and the line break of the markup. *)
Definition dq : string := String "034"%char EmptyString.
Definition nl : string := String "010"%char EmptyString.

(** Lines 80-98: the markup handed to [st.markdown].  [rank] is [VNone]
    where the caller passes no rank. *)
Definition display_song (s : song) (rank : value) : result string :=
  i ← get_item "id" s;
  let spotify_url := "https://open.spotify.com/track/" ++ py_str i in
  let release_year := default (VStr "N/A") (s !! "release_year") in
  full_name ← get_item "full_name" s;
  let display_text := py_str full_name ++ " (" ++ py_str release_year ++ ")" in
  let display_text :=
    match rank with
    | VNone => display_text
    | _ => py_str rank ++ ". " ++ display_text
    end in
  image_url ← get_item "image_url" s;
  Ok (nl ++
      "        <div style=" ++ dq ++
        "display: flex; align-items: center; gap: 10px; height: 40px;" ++ dq ++ ">" ++ nl ++
      "            <a href=" ++ dq ++ spotify_url ++ dq ++ " target=" ++ dq ++ "_blank" ++ dq ++
        " style=" ++ dq ++
        "display: flex; align-items: center; gap: 10px; text-decoration: none; color: #191414;"
        ++ dq ++ ">" ++ nl ++
      "                <img src=" ++ dq ++ py_str image_url ++ dq ++ " style=" ++ dq ++
        "width: 30px; height: 30px;" ++ dq ++ ">" ++ nl ++
      "                <p style=" ++ dq ++ "margin: 0; font-size: 16px;" ++ dq ++ ">" ++
        display_text ++ "</p>" ++ nl ++
      "            </a>" ++ nl ++
      "        </div>" ++ nl ++
      "    ").

(** Line 260: a row of the ranking is displayed with its rank. *)
Definition display_row (s : song) : result string :=
  rank ← get_item "rank" s;
  display_song s rank.

(** ** What the further properties are stated with *)

(** A track both normalizers accept: it lists an artist and its release
    date is a string. *)
Definition normalizable (t : raw_track) : bool :=
  match artists t, release_date (track_album t) with
  | _ :: _, Some (VStr _) => true
  | _, _ => false
  end.

(** The keys of a search hit. *)
Definition base_keys : list string :=
  ["id"; "name"; "artist"; "full_name"; "image_url"; "release_year"].

Definition has_keys (ks : list string) (e : song) : Prop :=
  Forall (fun k => is_Some (e !! k)) ks.

(** The rank of [e] is the integer [k]. *)
Definition has_rank (e : song) (k : Z) : Prop := e !! "rank" = Some (VInt k).

Definition ranked_entry (e : song) : Prop :=
  has_keys base_keys e /\ exists k, has_rank e k.

(** [rankings.json] holds the ranking shown; there is no file only as long
    as nothing was ranked. *)
Definition in_sync (s : session) : Prop :=
  match rankings_json s with
  | Some file => file = ranking s
  | None => ranked_songs s = []
  end.

(** What a session that started without a file keeps true beyond
    [session_inv]. *)
Definition session_wf (s : session) : Prop :=
  valid_locs (heap s) (ranked_songs s) /\
  valid_locs (heap s) (suggestions s) /\
  Forall ranked_entry (ranking s) /\
  Forall (has_keys base_keys) (songs_at (heap s) (suggestions s)) /\
  in_sync s.

(** The rank a user action carries, from a number input. *)
Definition event_rank (ev : event) : option Z :=
  match ev with
  | EditRank _ r => Some r
  | AddSearchResult _ _ _ r => Some r
  | AddSuggestion _ r => Some r
  | _ => None
  end.

(** The number inputs have [min_value=1] and [max_value=2000]. *)
Definition event_in_bounds (ev : event) : Prop :=
  forall r, event_rank ev = Some r -> (1 <= r <= 2000)%Z.

(** The ranks of a list of songs, in order. *)
Definition ranks_of (l : list song) : list (option value) :=
  (fun e : song => e !! "rank") <$> l.

(** The rank of [e] is an integer of 1..2000. *)
Definition rank_in_bounds (e : song) : Prop :=
  exists k : Z, has_rank e k /\ (1 <= k <= 2000)%Z.

(** ** Sample sessions *)

Definition song_a : song := <["rank" := VInt 1]> {["id" := VStr "a"]}.
Definition song_b : song := <["rank" := VInt 3]> {["id" := VStr "b"]}.
Definition song_c : song := {["id" := VStr "c"]}.

(** Two ranked songs and one suggestion. *)
Definition small_session : session :=
  {| heap := [song_a; song_b; song_c];
     ranked_songs := [0; 1];
     suggestions := [2];
     rankings_json := Some [song_a; song_b];
     stdout := [] |}.

(** A recently played item whose timestamp has no fraction of a second. *)
Definition no_fraction_item : played_item :=
  {| played_track := africa; played_at := "2026-01-01T00:00:00Z" |}.

Definition no_fraction_sp : spotify :=
  {| current_user_top_tracks := Ok sample_top;
     current_user_recently_played := Ok [no_fraction_item];
     search := fun _ => Ok [never_gonna; undated];
     track := fun _ => Ok never_gonna |}.

(** Top tracks with one that has no release date. *)
Definition undated_top_sp : spotify :=
  {| current_user_top_tracks := Ok [africa; undated];
     current_user_recently_played := Ok [];
     search := fun _ => Ok [never_gonna; africa];
     track := fun _ => Ok never_gonna |}.

(** ** The clock of line 38

    [played_at] is a UTC stamp.  The format of line 38 takes its 'Z' as a
    literal, so [strptime] returns a naive datetime, and [timestamp()]
    reads a naive datetime as local time.  With [instant_ms s] the instant
    the stamp [s] denotes, in milliseconds since the epoch, and
    [offset_ms] the offset of local time from UTC in force at the
    moment the fields of the stamp name, the value line 38 computes is the
    instant less the offset.  The rounding of the float product is left
    out. *)
Definition local_strptime_ms (instant_ms : string -> result Z)
    (offset_ms : Z -> Z) (s : string) : result Z :=
  at_utc ← instant_ms s; Ok (at_utc - offset_ms at_utc)%Z.

(** Local time on UTC, five hours behind it, and one hour ahead of it. *)
Definition utc_offset_ms (_ : Z) : Z := 0.
Definition new_york_offset_ms (_ : Z) : Z := -5 * 60 * 60 * 1000.
Definition amsterdam_offset_ms (_ : Z) : Z := 1 * 60 * 60 * 1000.

(** One play of [africa], on 1 January 2026 at midnight UTC. *)
Definition one_play : list played_item :=
  [ {| played_track := africa; played_at := "2026-01-01T00:00:00.000Z" |} ].

Definition one_play_sp : spotify :=
  {| current_user_top_tracks := Ok [africa];
     current_user_recently_played := Ok one_play;
     search := fun _ => Ok [];
     track := fun _ => Ok africa |}.

(** 365 days and one hour after that play, and 365 days less half an hour
    after it. *)
Definition hour_past_a_year : Z := 1767225600000 + year_ms + 60 * 60 * 1000.
Definition half_hour_short_of_a_year : Z := 1767225600000 + year_ms - 30 * 60 * 1000.

(** * Properties *)

(** ** The error monad *)

Lemma bind_Ok {A B} (m : result A) (f : A -> result B) (b : B) :
  (m ≫= f) = Ok b -> exists a, m = Ok a /\ f a = Ok b.
Proof. destruct m as [a|e]; simpl; [eauto | discriminate]. Qed.

Lemma for_each_Ok {A B} (f : A -> result B) (l : list A) (ys : list B) :
  for_each f l = Ok ys -> Forall2 (fun x y => f x = Ok y) l ys.
Proof.
  revert ys. induction l as [|x l IH]; intros ys H; simpl in H.
  - injection H as <-. constructor.
  - apply bind_Ok in H as (y & Hy & H).
    apply bind_Ok in H as (ys' & Hys & H).
    injection H as <-. constructor; auto.
Qed.

Lemma for_each_total {A B} (f : A -> result B) (l : list A) :
  Forall (fun x => exists y, f x = Ok y) l -> exists ys, for_each f l = Ok ys.
Proof.
  induction 1 as [|x l [y Hy] _ [ys Hys]]; simpl.
  - eauto.
  - rewrite Hy, Hys. simpl. eauto.
Qed.

(** ** get_next_available_rank *)

Lemma first_free_seqZ (taken : gset value) (n : nat) (a : Z) :
  let r := first_free taken (seqZ a (Z.of_nat n)) in
  ((a <= r < a + Z.of_nat n)%Z /\ (VInt r ∉ taken) /\
   forall k, (a <= k < r)%Z -> VInt k ∈ taken) \/
  (r = 2000%Z /\ forall k, (a <= k < a + Z.of_nat n)%Z -> VInt k ∈ taken).
Proof.
  revert a. induction n as [|n IH]; intros a; cbn zeta.
  - right. rewrite seqZ_nil by lia. split; [reflexivity | intros; lia].
  - rewrite seqZ_cons by lia.
    replace (Z.pred (Z.of_nat (S n))) with (Z.of_nat n) by lia.
    simpl. destruct (decide (VInt a ∈ taken)) as [Hin|Hout].
    + specialize (IH (Z.succ a)). cbn zeta in IH.
      destruct IH as [(Hr & Hfree & Hlow)|(Hr & Hall)].
      * left. split; [lia|]. split; [assumption|].
        intros k Hk. destruct (decide (k = a)) as [->|]; [assumption|].
        apply Hlow. lia.
      * right. split; [assumption|].
        intros k Hk. destruct (decide (k = a)) as [->|]; [assumption|].
        apply Hall. lia.
    + left. split; [lia|]. split; [assumption | intros; lia].
Qed.

Lemma current_ranks_spec (l : list song) (ranks : list value) (k : Z) :
  for_each (get_item "rank") l = Ok ranks ->
  (VInt k ∈ (list_to_set ranks : gset value) <-> rank_taken l k).
Proof.
  intros H. apply for_each_Ok in H. rewrite elem_of_list_to_set.
  unfold rank_taken. induction H as [|s v l ranks Hs _ IH].
  - split; [intros Hk; inversion Hk | intros (s & Hs & _); inversion Hs].
  - unfold get_item in Hs. destruct (s !! "rank") as [w|] eqn:Hw; [|discriminate].
    injection Hs as ->. rewrite elem_of_cons, IH. split.
    + intros [->|(s' & Hin & Hr)].
      * exists s. split; [left | assumption].
      * exists s'. split; [right; assumption | assumption].
    + intros (s' & Hin & Hr). apply elem_of_cons in Hin as [->|Hin].
      * left. congruence.
      * right. eauto.
Qed.

(** C1. On a store whose entries all carry a rank, [get_next_available_rank]
    returns the smallest rank in 1..2000 that no entry holds, and 2000 when
    all 2000 are held.  It only reads its argument: the result is a number,
    the store is not part of it. *)
Theorem next_available_rank_is_lowest_free (ranked_songs : list song) :
  Forall (fun s : song => is_Some (s !! "rank")) ranked_songs ->
  exists r : Z,
    get_next_available_rank ranked_songs = Ok r /\
    (((1 <= r <= 2000)%Z /\ ~ rank_taken ranked_songs r /\
      forall k, (1 <= k < r)%Z -> rank_taken ranked_songs k) \/
     (r = 2000%Z /\ forall k, (1 <= k <= 2000)%Z -> rank_taken ranked_songs k)).
Proof.
  intros Hranks.
  destruct (for_each_total (get_item "rank") ranked_songs) as [ranks Hr].
  { eapply Forall_impl; [exact Hranks|]. intros s [v Hv].
    exists v. unfold get_item. rewrite Hv. reflexivity. }
  destruct (decide (ranked_songs = [])) as [->|Hne].
  - exists 1%Z. split; [reflexivity|]. left.
    split; [lia|]. split; [|intros; lia].
    intros (s & Hs & _). inversion Hs.
  - 
    exists (first_free (list_to_set ranks) (seqZ 1 2000)). split.
    + unfold get_next_available_rank.
      destruct ranked_songs; [congruence|]. rewrite Hr. reflexivity.
    + pose proof (first_free_seqZ (list_to_set ranks) 2000 1) as H.
      cbn zeta in H. change (Z.of_nat 2000) with 2000%Z in H.
      destruct H as [(Hb & Hfree & Hlow)|(Hb & Hall)].
      * left. split; [lia|]. split.
        -- intros Ht. apply Hfree. eapply current_ranks_spec; eassumption.
        -- intros k Hk. eapply current_ranks_spec; [eassumption|]. apply Hlow. lia.
      * right. split; [assumption|]. intros k Hk.
        eapply current_ranks_spec; [eassumption|]. apply Hall. lia.
Qed.

(** ** get_spotify_suggestions *)

Lemma index_of_elem (x : string) (l : list string) :
  x ∈ l -> is_Some (index_of x l).
Proof.
  induction l as [|y l IH]; intros Hx; [inversion Hx|].
  simpl. destruct (decide (y = x)); [eauto|].
  apply elem_of_cons in Hx as [->|Hx]; [congruence|].
  destruct (IH Hx) as [p ->]. simpl. eauto.
Qed.

Lemma kept_ids (top : list raw_track) (seen : gset string) (x : string) :
  x ∈ id <$> kept seen top -> (x ∉ seen) /\ (x ∈ id <$> top).
Proof.
  revert seen. induction top as [|t rest IH]; intros seen Hx; simpl in *.
  - inversion Hx.
  - destruct (decide (id t ∈ seen)).
    + destruct (IH _ Hx). split; [assumption | right; assumption].
    + rewrite fmap_cons in Hx. apply elem_of_cons in Hx as [->|Hx].
      * split; [assumption | left].
      * destruct (IH _ Hx) as [Hs Hr]. split; [|right; assumption].
        intros Hin. apply Hs, elem_of_union. by right.
Qed.

Lemma kept_NoDup (top : list raw_track) (seen : gset string) :
  NoDup (id <$> kept seen top).
Proof.
  revert seen. induction top as [|t rest IH]; intros seen; simpl.
  - constructor.
  - destruct (decide (id t ∈ seen)); [apply IH|].
    rewrite fmap_cons. constructor; [|apply IH].
    intros Hin. apply kept_ids in Hin as [Hin _]. set_solver.
Qed.

Lemma kept_order (top : list raw_track) (seen : gset string)
    (i j : nat) (a b : string) :
  i < j ->
  (id <$> kept seen top) !! i = Some a ->
  (id <$> kept seen top) !! j = Some b ->
  exists p q, index_of a (id <$> top) = Some p /\
              index_of b (id <$> top) = Some q /\ p < q.
Proof.
  revert seen i j. induction top as [|t rest IH]; intros seen i j Hij Ha Hb.
  - discriminate.
  - simpl in Ha, Hb. rewrite fmap_cons. simpl.
    destruct (decide (id t ∈ seen)) as [Hseen|Hnew].
    + assert (a ∉ seen) as Has.
      { eapply kept_ids, list_elem_of_lookup_2, Ha. }
      assert (b ∉ seen) as Hbs.
      { eapply kept_ids, list_elem_of_lookup_2, Hb. }
      destruct (IH _ _ _ Hij Ha Hb) as (p & q & -> & -> & Hpq).
      destruct (decide (id t = a)) as [<-|]; [contradiction|].
      destruct (decide (id t = b)) as [<-|]; [contradiction|].
      exists (S p), (S q). simpl. repeat split; lia.
    + rewrite fmap_cons in Ha, Hb.
      destruct j as [|j]; [lia|]. simpl in Hb.
      assert (b ≠ id t /\ b ∈ id <$> rest) as [Hbt Hbr].
      { apply list_elem_of_lookup_2, kept_ids in Hb as [Hn Hr].
        split; [|done]. intros ->. apply Hn, elem_of_union. left.
        by apply elem_of_singleton. }
      destruct (decide (id t = b)) as [|_]; [congruence|].
      destruct i as [|i]; simpl in Ha.
      * injection Ha as <-. destruct (decide (id t = id t)); [|congruence].
        destruct (index_of_elem _ _ Hbr) as [q ->].
        exists 0, (S q). simpl. repeat split; lia.
      * assert (a ≠ id t) as Hat.
        { apply list_elem_of_lookup_2, kept_ids in Ha as [Hn _].
          intros ->. apply Hn, elem_of_union. left. by apply elem_of_singleton. }
        destruct (decide (id t = a)) as [|_]; [congruence|].
        destruct (IH _ i j ltac:(lia) Ha Hb) as (p & q & -> & -> & Hpq).
        exists (S p), (S q). simpl. repeat split; lia.
Qed.

Section SuggestionProofs.

Variable strptime_ms : string -> result Z.

Lemma suggestion_entry_fields (pc : gmap string Z) (t : raw_track) (e : song) :
  suggestion_entry pc t = Ok e ->
  song_id e = id t /\
  e !! "play_count" = Some (VInt (default 0%Z (pc !! id t))).
Proof.
  unfold suggestion_entry. intros H.
  apply bind_Ok in H as (y & _ & H). apply bind_Ok in H as (a & _ & H).
  injection H as <-. unfold song_id. split; reflexivity.
Qed.

Lemma collect_kept (pc : gmap string Z) (top : list raw_track)
    (seen : gset string) (acc out : list song) :
  collect pc top seen acc = Ok out ->
  exists new, out = (acc ++ new)%list /\
    Forall2 (fun t e => suggestion_entry pc t = Ok e) (kept seen top) new.
Proof.
  revert seen acc. induction top as [|t rest IH]; intros seen acc H; simpl in *.
  - injection H as <-. exists []. split; [by rewrite app_nil_r | constructor].
  - destruct (decide (id t ∈ seen)); [by apply IH|].
    apply bind_Ok in H as (e & He & H).
    apply IH in H as (new & -> & Hnew).
    exists (e :: new). split; [by rewrite <- app_assoc | by constructor].
Qed.

Lemma count_plays_spec (now : Z) (recent : list played_item)
    (pc0 pc : gmap string Z) (k : string) :
  count_plays strptime_ms (now - year_ms) recent pc0 = Ok pc ->
  default 0%Z (pc !! k) =
    (default 0%Z (pc0 !! k) +
     Z.of_nat (plays_in_last_year strptime_ms now k recent))%Z.
Proof.
  unfold plays_in_last_year.
  revert pc0. induction recent as [|item rest IH]; intros pc0 H; simpl in H.
  - injection H as <-. simpl. lia.
  - apply bind_Ok in H as (at_ms & Hat & H). apply IH in H. rewrite H. clear H.
    assert (in_last_year strptime_ms now item = (now - year_ms <? at_ms)%Z) as Hin.
    { unfold in_last_year. by rewrite Hat. }
    rewrite filter_cons.
    destruct (decide (id (played_track item) = k /\
                      in_last_year strptime_ms now item = true)) as [[Hid Hy]|Hn].
    + rewrite Hin in Hy. rewrite Hy. subst k.
      rewrite lookup_insert_eq. simpl length. simpl default. lia.
    + destruct (now - year_ms <? at_ms)%Z; [|done].
      destruct (decide (id (played_track item) = k)) as [Hid|Hne].
      * exfalso. apply Hn. split; [done | by rewrite Hin].
      * by rewrite lookup_insert_ne.
Qed.

(** Either the run ended in the [except] branch, or both fetches, the
    play counts and the loop went through. *)
Lemma suggestions_cases (sp : spotify) (now : Z) (top : list raw_track) :
  current_user_top_tracks sp = Ok top ->
  get_spotify_suggestions strptime_ms sp now = [] \/
  exists recent pc,
    current_user_recently_played sp = Ok recent /\
    count_plays strptime_ms (now - year_ms) recent ∅ = Ok pc /\
    collect pc top ∅ [] = Ok (get_spotify_suggestions strptime_ms sp now).
Proof.
  intros Htop.
  unfold get_spotify_suggestions, run, get_spotify_suggestions_io, try_except.
  unfold mbind, io_bind, print, lift, mret, io_ret. rewrite Htop.
  destruct (current_user_recently_played sp) as [recent|e]; [|by left].
  destruct (count_plays _ _ recent ∅) as [pc|e] eqn:Hpc; [|by left].
  destruct (collect pc top ∅ []) as [out|e] eqn:Hout; [|by left].
  right. eauto.
Qed.


(** The play count of a suggestion is the number of recently played items
    of that track for which [strptime_ms] gives a value later than 365 days
    before now, in milliseconds; a track without such an item has play
    count 0.  Whether that value is the instant the item was played at is
    up to [strptime_ms]. *)
Lemma play_count_is_plays_in_last_year (sp : spotify) (now : Z)
    (top : list raw_track) (recent : list played_item) :
  current_user_top_tracks sp = Ok top ->
  current_user_recently_played sp = Ok recent ->
  forall s : song,
    s ∈ get_spotify_suggestions strptime_ms sp now ->
    s !! "play_count" =
      Some (VInt (Z.of_nat (plays_in_last_year strptime_ms now (song_id s) recent))).
Proof.
  intros Htop Hrecent s Hs.
  destruct (suggestions_cases sp now top Htop)
    as [Hnil|(recent' & pc & Hrecent' & Hpc & Hout)].
  { rewrite Hnil in Hs. inversion Hs. }
  assert (recent' = recent) as -> by congruence.
  apply collect_kept in Hout as (new & Hnew & Hall). simpl in Hnew.
  rewrite Hnew in Hs.
  apply list_elem_of_lookup in Hs as [i Hi].
  destruct (Forall2_lookup_r _ _ _ _ _ Hall Hi) as (t & _ & He).
  apply suggestion_entry_fields in He as [Hid ->].
  rewrite (count_plays_spec now recent ∅ pc (id t) Hpc).
  rewrite lookup_empty, Hid. simpl. done.
Qed.



End SuggestionProofs.

(** ** The window of the play counts and the clock *)

Lemma local_strptime_ms_utc (instant_ms : string -> result Z) (s : string) :
  local_strptime_ms instant_ms utc_offset_ms s = instant_ms s.
Proof.
  unfold local_strptime_ms, utc_offset_ms.
  destruct (instant_ms s) as [at_utc|e]; simpl; [|done].
  by rewrite Z.sub_0_r.
Qed.

(** Line 39 with the clock of line 38: the window is moved by the offset
    of local time. *)
Lemma in_last_year_local (instant_ms : string -> result Z) (offset_ms : Z -> Z)
    (now : Z) (item : played_item) :
  in_last_year (local_strptime_ms instant_ms offset_ms) now item =
  match instant_ms (played_at item) with
  | Ok at_utc => (now - year_ms + offset_ms at_utc <? at_utc)%Z
  | Raise _ => false
  end.
Proof.
  unfold in_last_year, local_strptime_ms.
  destruct (instant_ms (played_at item)) as [at_utc|e]; simpl; [|done].
  destruct (Z.ltb_spec (now - year_ms) (at_utc - offset_ms at_utc));
    destruct (Z.ltb_spec (now - year_ms + offset_ms at_utc) at_utc); lia.
Qed.

Lemma plays_in_last_year_utc (instant_ms : string -> result Z) (now : Z)
    (tid : string) (recent : list played_item) :
  plays_in_last_year (local_strptime_ms instant_ms utc_offset_ms) now tid recent =
  plays_in_last_year instant_ms now tid recent.
Proof.
  unfold plays_in_last_year. f_equal. apply list_filter_iff. intros item.
  unfold in_last_year. by rewrite local_strptime_ms_utc.
Qed.

(** On a machine whose local time is UTC the play count of a suggestion
    is the number of recently played items of that track that were played
    later than 365 days before now. *)
Lemma play_count_in_utc (instant_ms : string -> result Z) (sp : spotify)
    (now : Z) (top : list raw_track) (recent : list played_item) :
  current_user_top_tracks sp = Ok top ->
  current_user_recently_played sp = Ok recent ->
  forall s : song,
    s ∈ get_spotify_suggestions (local_strptime_ms instant_ms utc_offset_ms) sp now ->
    s !! "play_count" =
      Some (VInt (Z.of_nat (plays_in_last_year instant_ms now (song_id s) recent))).
Proof.
  intros Htop Hrecent s Hs.
  rewrite <- plays_in_last_year_utc.
  by eapply play_count_is_plays_in_last_year.
Qed.

(** C4, where the program differs.  [sample_strptime_ms] gives the instants
    of the sample stamps in UTC.  One hour past 365 days after its only
    play, a track has no play in the last 365 days; with local time five
    hours behind UTC the program gives it play count 1.  Half an hour short
    of 365 days after the play the track has one play in the last 365 days;
    with local time one hour ahead of UTC the program gives it play
    count 0.  With local time on UTC the counts are 0 and 1, as they
    should be. *)
Theorem play_count_window_follows_local_time :
  plays_in_last_year sample_strptime_ms hour_past_a_year (id africa) one_play = 0 /\
  (fun s : song => s !! "play_count") <$>
    get_spotify_suggestions (local_strptime_ms sample_strptime_ms new_york_offset_ms)
      one_play_sp hour_past_a_year = [Some (VInt 1)] /\
  plays_in_last_year sample_strptime_ms half_hour_short_of_a_year (id africa)
    one_play = 1 /\
  (fun s : song => s !! "play_count") <$>
    get_spotify_suggestions (local_strptime_ms sample_strptime_ms amsterdam_offset_ms)
      one_play_sp half_hour_short_of_a_year = [Some (VInt 0)] /\
  (fun s : song => s !! "play_count") <$>
    get_spotify_suggestions (local_strptime_ms sample_strptime_ms utc_offset_ms)
      one_play_sp hour_past_a_year = [Some (VInt 0)] /\
  (fun s : song => s !! "play_count") <$>
    get_spotify_suggestions (local_strptime_ms sample_strptime_ms utc_offset_ms)
      one_play_sp half_hour_short_of_a_year = [Some (VInt 1)].
Proof. repeat split; vm_compute; reflexivity. Qed.

(** ** sorted *)

Section Sorting.

Context {A : Type}.

Lemma insert_by_key_perm (x : Z * A) (l : list (Z * A)) :
  insert_by_key x l ≡ₚ x :: l.
Proof.
  induction l as [|y l IH]; simpl; [done|].
  destruct (x.1 <=? y.1)%Z; [done|]. by rewrite IH, Permutation_swap.
Qed.

Lemma sort_by_key_perm (l : list (Z * A)) : sort_by_key l ≡ₚ l.
Proof.
  induction l as [|x l IH]; simpl; [done|].
  by rewrite insert_by_key_perm, IH.
Qed.

Lemma insert_by_key_sorted (x : Z * A) (l : list (Z * A)) :
  StronglySorted key_le l -> StronglySorted key_le (insert_by_key x l).
Proof.
  induction l as [|y l IH]; intros Hl; simpl.
  - repeat constructor.
  - apply StronglySorted_inv in Hl as [Hl Hy].
    destruct (x.1 <=? y.1)%Z eqn:Hxy.
    + apply Z.leb_le in Hxy. constructor; [by constructor|].
      constructor; [done|].
      eapply Forall_impl; [exact Hy|]. unfold key_le. intros; lia.
    + apply Z.leb_gt in Hxy. constructor; [by apply IH|].
      rewrite insert_by_key_perm. constructor; [unfold key_le; lia | done].
Qed.

Lemma sort_by_key_sorted (l : list (Z * A)) : StronglySorted key_le (sort_by_key l).
Proof.
  induction l as [|x l IH]; simpl; [constructor|].
  by apply insert_by_key_sorted.
Qed.

Variable key : A -> result Z.

Lemma decorated_spec (l : list A) (d : list (Z * A)) :
  for_each (fun x => k ← key x; Ok (k, x)) l = Ok d ->
  d.*2 = l /\ Forall (fun p => key p.2 = Ok p.1) d.
Proof.
  intros H. apply for_each_Ok in H.
  induction H as [|x p l d Hp _ [IH1 IH2]]; [by split|].
  apply bind_Ok in Hp as (k & Hk & Hp). injection Hp as <-.
  split; [by rewrite fmap_cons, IH1 | by constructor].
Qed.

Lemma undecorate_sorted (d : list (Z * A)) :
  Forall (fun p => key p.2 = Ok p.1) d ->
  StronglySorted key_le d -> StronglySorted (by_key key) (d.*2).
Proof.
  induction 2 as [|p d Hd IH Hp]; [constructor|].
  apply Forall_cons in H as [Hk Hks].
  rewrite fmap_cons. constructor; [by apply IH|].
  rewrite Forall_fmap. rewrite Forall_forall in Hp, Hks |- *.
  intros q Hq. exists p.1, q.1. repeat split; [done | by apply Hks | by apply Hp].
Qed.

(** [sorted] returns a rearrangement of its argument, ascending by key. *)
Lemma sorted_by_spec (l l' : list A) :
  sorted_by key l = Ok l' -> l' ≡ₚ l /\ StronglySorted (by_key key) l'.
Proof.
  unfold sorted_by. intros H. apply bind_Ok in H as (d & Hd & H).
  injection H as <-. apply decorated_spec in Hd as [<- Hkeys]. split.
  - by rewrite sort_by_key_perm.
  - apply undecorate_sorted; [|apply sort_by_key_sorted].
    by rewrite sort_by_key_perm.
Qed.

(** [sorted] raises only when a key does. *)
Lemma sorted_by_total (l : list A) :
  Forall (fun x => exists k, key x = Ok k) l -> exists l', sorted_by key l = Ok l'.
Proof.
  intros H. unfold sorted_by.
  destruct (for_each_total (fun x => k ← key x; Ok (k, x)) l) as [d ->]; [|simpl; eauto].
  eapply Forall_impl; [exact H|]. intros x [k ->]. simpl. eauto.
Qed.

End Sorting.

(** ** The heap *)

Lemma rank_key_Ok (s : song) (k : Z) :
  rank_key s = Ok k -> s !! "rank" = Some (VInt k).
Proof.
  unfold rank_key, get_item. destruct (s !! "rank") as [[]|]; simpl; congruence.
Qed.

Lemma by_rank_key_le (h : list song) (a b : nat) :
  by_key (fun l => rank_key (deref h l)) a b -> rank_le (deref h a) (deref h b).
Proof.
  intros (ka & kb & Ha & Hb & Hle). exists ka, kb.
  auto using rank_key_Ok.
Qed.

Lemma sorted_by_rank_key (h : list song) (ls sorted : list nat) :
  sorted_by (fun l => rank_key (deref h l)) ls = Ok sorted ->
  sorted ≡ₚ ls /\ sorted_by_rank (songs_at h sorted).
Proof.
  intros H. apply sorted_by_spec in H as [Hperm Hsorted]. split; [done|].
  eapply StronglySorted_fmap; [|exact Hsorted]. apply by_rank_key_le.
Qed.

Lemma valid_locs_insert (h : list song) (l : nat) (x : song) (ls : list nat) :
  valid_locs h ls -> valid_locs (<[l := x]> h) ls.
Proof. unfold valid_locs. by rewrite length_insert. Qed.

Lemma valid_locs_app (h new : list song) (ls : list nat) :
  valid_locs h ls -> valid_locs (h ++ new) ls.
Proof.
  unfold valid_locs. intros H. eapply Forall_impl; [exact H|].
  intros l Hl. simpl in Hl. rewrite length_app. lia.
Qed.

(** Allocating new objects does not change the ones already there. *)
Lemma songs_at_app (h new : list song) (ls : list nat) :
  valid_locs h ls -> songs_at (h ++ new) ls = songs_at h ls.
Proof.
  intros H. unfold songs_at. apply Forall_fmap_ext_1.
  eapply Forall_impl; [exact H|]. intros l Hl. simpl in Hl. unfold deref.
  by rewrite lookup_app_l.
Qed.

Lemma songs_at_seq (h : list song) : songs_at h (seq 0 (length h)) = h.
Proof.
  apply list_eq. intros i. unfold songs_at. rewrite list_lookup_fmap.
  destruct (h !! i) as [x|] eqn:Hx.
  - rewrite (proj2 (lookup_seq 0 (length h) i i)).
    + simpl. unfold deref. by rewrite Hx.
    + split; [done | by eapply lookup_lt_Some].
  - apply lookup_ge_None in Hx.
    destruct (seq 0 (length h) !! i) as [j|] eqn:Hj; [|done].
    apply lookup_seq in Hj. lia.
Qed.

Lemma list_remove_elem (h : list song) (x : song) (ls rest : list nat) (l : nat) :
  list_remove h x ls = Ok rest -> l ∈ rest -> l ∈ ls.
Proof.
  revert rest. induction ls as [|l0 ls IH]; intros rest H Hl; simpl in H.
  - discriminate.
  - destruct (decide (deref h l0 = x)).
    + injection H as <-. by right.
    + apply bind_Ok in H as (r & Hr & H). injection H as <-.
      apply elem_of_cons in Hl as [->|Hl]; [left | right; eauto].
Qed.

Lemma list_remove_sorted (h : list song) (x : song) (ls rest : list nat) :
  list_remove h x ls = Ok rest ->
  sorted_by_rank (songs_at h ls) -> sorted_by_rank (songs_at h rest).
Proof.
  unfold sorted_by_rank, songs_at.
  revert rest. induction ls as [|l0 ls IH]; intros rest H Hs; simpl in H.
  - discriminate.
  - rewrite fmap_cons in Hs. apply StronglySorted_inv in Hs as [Hs Hl0].
    destruct (decide (deref h l0 = x)).
    + by injection H as <-.
    + apply bind_Ok in H as (r & Hr & H). injection H as <-.
      rewrite fmap_cons. constructor; [by apply IH|].
      rewrite Forall_fmap, Forall_forall in Hl0 |- *.
      intros l Hl. apply Hl0. eapply list_remove_elem; eassumption.
Qed.

(** [list.remove] finds what is in the list, and the list gets one shorter. *)
Lemma list_remove_total (h : list song) (ls : list nat) (l : nat) :
  l ∈ ls -> exists rest, list_remove h (deref h l) ls = Ok rest /\
                          S (length rest) = length ls.
Proof.
  induction ls as [|l0 ls IH]; intros Hl; [inversion Hl|]. simpl.
  destruct (decide (deref h l0 = deref h l)) as [|Hne]; [by exists ls|].
  apply elem_of_cons in Hl as [->|Hl]; [congruence|].
  destruct (IH Hl) as (rest & -> & Hlen). simpl. exists (l0 :: rest).
  split; [done | simpl; lia].
Qed.

Lemma backfill_rank (sp : option spotify) (s : song) :
  backfill sp s !! "rank" = s !! "rank".
Proof.
  unfold backfill. destruct (s !! "release_year"); [done|].
  destruct (_ ≫= _); by rewrite lookup_insert_ne.
Qed.

Lemma backfill_sorted (sp : option spotify) (file : list song) :
  sorted_by_rank file -> sorted_by_rank (backfill sp <$> file).
Proof.
  apply StronglySorted_fmap. intros a b (ra & rb & Ha & Hb & Hle).
  exists ra, rb. by rewrite !backfill_rank.
Qed.

(** ** The handlers keep the ranking sorted *)

(** After [song['rank'] = ...] on object [l], [sorted] and [save_rankings]:
    lines 271-276, 310-316 and 349-355. *)
Lemma resorted_inv (s : session) (l : nat) (x : song) (ls sorted : list nat) :
  valid_locs (heap s) ls ->
  valid_locs (heap s) (suggestions s) ->
  sorted_by (fun l' => rank_key (deref (<[l := x]> (heap s)) l')) ls = Ok sorted ->
  session_inv {| heap := <[l := x]> (heap s);
                 ranked_songs := sorted;
                 suggestions := suggestions s;
                 rankings_json := save_rankings (songs_at (<[l := x]> (heap s)) sorted);
                 stdout := stdout s |}.
Proof.
  intros Hls Hsug H. apply sorted_by_rank_key in H as [Hperm Hsorted].
  repeat split; simpl.
  - exact Hsorted.
  - apply valid_locs_insert. unfold valid_locs. by rewrite Hperm.
  - by apply valid_locs_insert.
  - unfold save_rankings. intros file [= <-]. exact Hsorted.
Qed.

Lemma edit_rank_inv (idx : nat) (new_rank : Z) (s s' : session) :
  session_inv s -> edit_rank idx new_rank s = Ok s' -> session_inv s'.
Proof.
  intros (Hsorted & Hranked & Hsug & Hfile) H. unfold edit_rank in H.
  destruct (ranked_songs s !! idx) as [l|]; [|by injection H as <-].
  apply bind_Ok in H as (old & _ & H).
  destruct (decide (VInt new_rank = old)); [by injection H as <-|].
  apply bind_Ok in H as (sorted & Hs & H). injection H as <-.
  eapply resorted_inv; [exact Hranked | exact Hsug | exact Hs].
Qed.

Lemma remove_row_inv (idx : nat) (s s' : session) :
  session_inv s -> remove_row idx s = Ok s' -> session_inv s'.
Proof.
  intros (Hsorted & Hranked & Hsug & Hfile) H. unfold remove_row in H.
  destruct (ranked_songs s !! idx) as [l|]; [|by injection H as <-].
  apply bind_Ok in H as (rest & Hrest & H). injection H as <-.
  assert (sorted_by_rank (songs_at (heap s) rest)) as Hs'.
  { eapply list_remove_sorted; eassumption. }
  repeat split; simpl; [done| |done|].
  - unfold valid_locs in *. rewrite Forall_forall in Hranked |- *.
    intros l' Hl'. eapply Hranked, list_remove_elem; eassumption.
  - unfold save_rankings. by intros file [= <-].
Qed.

Lemma add_song_inv (l : nat) (rank : Z) (s s' : session) :
  session_inv s -> l < length (heap s) ->
  add_song l rank s = Ok s' -> session_inv s'.
Proof.
  intros (Hsorted & Hranked & Hsug & Hfile) Hl H. unfold add_song in H.
  destruct (decide (_ ∈ _)); [by injection H as <-|].
  apply bind_Ok in H as (sorted & Hs & H). injection H as <-.
  eapply resorted_inv; [|done|exact Hs].
  apply Forall_app. split; [done | by repeat constructor].
Qed.

Lemma add_search_result_inv (sp : spotify) (query : string) (idx : nat)
    (rank : Z) (s s' : session) :
  session_inv s -> add_search_result sp query idx rank s = Ok s' -> session_inv s'.
Proof.
  intros (Hsorted & Hranked & Hsug & Hfile) H. unfold add_search_result in H.
  apply bind_Ok in H as (hits & _ & H).
  destruct (hits !! idx) as [hit|] eqn:Hhit; [|by injection H as <-].
  eapply add_song_inv; [| |exact H].
  - repeat split; simpl; [|by apply valid_locs_app..|done].
    unfold ranking. simpl. by rewrite songs_at_app.
  - simpl. rewrite length_app. apply lookup_lt_Some in Hhit. lia.
Qed.

Lemma add_suggestion_inv (idx : nat) (rank : Z) (s s' : session) :
  session_inv s -> add_suggestion idx rank s = Ok s' -> session_inv s'.
Proof.
  intros Hinv H. unfold add_suggestion in H.
  destruct (suggestions s !! idx) as [l|] eqn:Hl; [|by injection H as <-].
  eapply add_song_inv; [done| |exact H].
  destruct Hinv as (_ & _ & Hsug & _). unfold valid_locs in Hsug.
  rewrite Forall_lookup in Hsug. eapply Hsug, Hl.
Qed.

Lemma new_session_inv (file : option (list song)) :
  (forall f, file = Some f -> sorted_by_rank f) -> session_inv (new_session file).
Proof.
  intros Hfile. unfold new_session. repeat split; simpl; [| |constructor|done].
  - unfold ranking. simpl. rewrite songs_at_seq.
    destruct file as [f|]; simpl; [|constructor].
    by apply backfill_sorted, Hfile.
  - apply Forall_seq. intros; lia.
Qed.

Section Invariant.

Variable strptime_ms : string -> result Z.

Lemma load_suggestions_inv (sp : spotify) (now : Z) (s : session) :
  session_inv s -> session_inv (load_suggestions strptime_ms sp now s).
Proof.
  intros (Hsorted & Hranked & Hsug & Hfile). unfold load_suggestions.
  destruct (run _) as [r out].
  destruct (match r with Ok l => l | Raise _ => [] end) as [|x found];
    [done|].
  repeat split; [| | |done].
  - unfold ranking. cbn [heap ranked_songs]. by rewrite songs_at_app.
  - cbn [heap ranked_songs]. by apply valid_locs_app.
  - cbn [heap suggestions]. apply Forall_seq. intros j Hj.
    rewrite length_app. lia.
Qed.

Lemma handle_inv (ev : event) (s s' : session) :
  session_inv s -> handle strptime_ms ev s = Ok s' -> session_inv s'.
Proof.
  intros Hinv H. destruct ev; simpl in H.
  - eapply edit_rank_inv; eassumption.
  - eapply remove_row_inv; eassumption.
  - eapply add_search_result_inv; eassumption.
  - injection H as <-. by apply load_suggestions_inv.
  - eapply add_suggestion_inv; eassumption.
  - injection H as <-. apply new_session_inv. by destruct Hinv as (_ & _ & _ & ?).
Qed.

Lemma reachable_inv (s : session) : reachable strptime_ms s -> session_inv s.
Proof.
  induction 1 as [|ev s s' _ IH Hstep].
  - by apply new_session_inv.
  - eapply handle_inv; eassumption.
Qed.

(** C8. In every session the program can reach through rank edits, adds,
    removals, reloads of the suggestions and restarts from the saved
    file, the ranking is ascending by rank. *)
Theorem ranking_stays_sorted (s : session) :
  reachable strptime_ms s -> sorted_by_rank (ranking s).
Proof. intros H. by apply reachable_inv in H as [? _]. Qed.

End Invariant.

(** ** load_rankings, save_rankings *)

Lemma backfill_present (sp : option spotify) (e : song) :
  is_Some (e !! "release_year") -> backfill sp e = e.
Proof. intros [y Hy]. unfold backfill. by rewrite Hy. Qed.


Lemma backfill_missing (sp : option spotify) (e : song) :
  e !! "release_year" = None ->
  exists y : string,
    backfill sp e = <["release_year" := VStr y]> e /\
    (y = "N/A" \/
     exists (c : spotify) (v : value) (t : raw_track) (d : string),
       sp = Some c /\ e !! "id" = Some v /\ track c v = Ok t /\
       release_date (track_album t) = Some (VStr d) /\ y = substring 0 4 d) /\
    (forall (c : spotify) (v : value) (err : exn),
       sp = Some c -> e !! "id" = Some v -> track c v = Raise err -> y = "N/A").
Proof.
  intros Hy. unfold backfill. rewrite Hy.
  destruct sp as [c|]; simpl; [|exists "N/A"; split; [done|split; [by left|done]]].
  unfold get_item. destruct (e !! "id") as [v|]; simpl;
    [|exists "N/A"; split; [done|split; [by left|done]]].
  destruct (track c v) as [t|err] eqn:Ht; simpl;
    [|exists "N/A"; split; [done|split; [by left|done]]].
  unfold release_year_of.
  destruct (release_date (track_album t)) as [[| |d]|] eqn:Hd;
    try (exists "N/A"; split; [done|split; [by left|]];
         intros c' v' err [= <-] [= <-]; congruence).
  exists (substring 0 4 d). split; [done|]. split.
  - right. exists c, v, t, d. done.
  - intros c' v' err [= <-] [= <-]. congruence.
Qed.

(** The year [backfill] writes is fixed by what the lookup gave. *)
Lemma backfill_year (sp : option spotify) (e : song) (y : string) :
  e !! "release_year" = None ->
  backfill sp e = <["release_year" := VStr y]> e ->
  (forall (c : spotify) (v : value) (t : raw_track) (d : string),
     sp = Some c -> e !! "id" = Some v -> track c v = Ok t ->
     release_date (track_album t) = Some (VStr d) -> y = substring 0 4 d) /\
  (forall (c : spotify) (v : value) (t : raw_track),
     sp = Some c -> e !! "id" = Some v -> track c v = Ok t ->
     (forall d : string, release_date (track_album t) <> Some (VStr d)) ->
     y = "N/A") /\
  (sp = None \/ e !! "id" = None -> y = "N/A").
Proof.
  intros Hy Hb.
  assert (backfill sp e !! "release_year" = Some (VStr y)) as H
    by (by rewrite Hb, lookup_insert_eq).
  clear Hb. unfold backfill in H. rewrite Hy in H. split; [|split].
  - intros c v t d -> Hid Ht Hd. simpl in H. unfold get_item in H.
    rewrite Hid in H. simpl in H. rewrite Ht in H. simpl in H.
    unfold release_year_of in H. rewrite Hd in H. simpl in H.
    rewrite lookup_insert_eq in H. congruence.
  - intros c v t -> Hid Ht Hd. simpl in H. unfold get_item in H.
    rewrite Hid in H. simpl in H. rewrite Ht in H. simpl in H.
    unfold release_year_of in H.
    destruct (release_date (track_album t)) as [[| |d]|]; simpl in H;
      rewrite lookup_insert_eq in H; congruence.
  - intros [->|Hid]; [|destruct sp as [c|]]; simpl in H; unfold get_item in H;
      try rewrite Hid in H; simpl in H; rewrite lookup_insert_eq in H; congruence.
Qed.

(** C9. Loading a file gives every entry without a [release_year] key that
    key and changes nothing else of it; the other entries and the order are
    as in the file.  The year is the first four characters of the release
    date when the single-track lookup returned a track whose album has a
    release date that is a string, and "N/A" when the lookup failed: there
    is no client, the entry has no id, the lookup raised, or the album has
    no such release date.  Without a file the result is the empty list. *)
Theorem load_fills_release_year (sp : option spotify) (entries : list song)
    (i : nat) (e : song) :
  entries !! i = Some e ->
  e !! "release_year" = None ->
  load_rankings sp None = [] /\
  length (load_rankings sp (Some entries)) = length entries /\
  (forall (j : nat) (e' : song),
     entries !! j = Some e' -> is_Some (e' !! "release_year") ->
     load_rankings sp (Some entries) !! j = Some e') /\
  exists y : string,
    load_rankings sp (Some entries) !! i = Some (<["release_year" := VStr y]> e) /\
    (forall (c : spotify) (v : value) (t : raw_track) (d : string),
       sp = Some c -> e !! "id" = Some v -> track c v = Ok t ->
       release_date (track_album t) = Some (VStr d) -> y = substring 0 4 d) /\
    (forall (c : spotify) (v : value) (err : exn),
       sp = Some c -> e !! "id" = Some v -> track c v = Raise err -> y = "N/A") /\
    (forall (c : spotify) (v : value) (t : raw_track),
       sp = Some c -> e !! "id" = Some v -> track c v = Ok t ->
       (forall d : string, release_date (track_album t) <> Some (VStr d)) ->
       y = "N/A") /\
    (sp = None \/ e !! "id" = None -> y = "N/A").
Proof.
  intros Hi Hy. split; [done|]. split; [apply length_fmap|]. split.
  { intros j e' Hj He'. simpl. rewrite list_lookup_fmap, Hj. simpl.
    by rewrite backfill_present. }
  destruct (backfill_missing sp e Hy) as (y & Hb & _ & Hfail).
  destruct (backfill_year sp e y Hy Hb) as (Hfound & Hundated & Hnone).
  exists y. split; [|done].
  simpl. by rewrite list_lookup_fmap, Hi, <- Hb.
Qed.


(** ** Errors of the catalog provider *)

(** C6, as the program has it.  [get_spotify_suggestions] never raises: an
    error of the top-tracks or of the recently-played call ends in the empty
    list and a printed line that carries the error.  An error of the
    single-track lookup during load leaves the entry in place with release
    year "N/A". *)
Theorem provider_errors_degrade (strptime_ms : string -> result Z)
    (sp : spotify) (now : Z) :
  (exists found out,
     run (get_spotify_suggestions_io strptime_ms sp now) = (Ok found, out)) /\
  (forall e : exn,
     current_user_top_tracks sp = Raise e ->
     get_spotify_suggestions strptime_ms sp now = [] /\
     run (get_spotify_suggestions_io strptime_ms sp now) =
       (Ok [], ["Fetching top tracks...";
                "Error getting suggestions: " ++ exn_str e])) /\
  (forall (top : list raw_track) (e : exn),
     current_user_top_tracks sp = Ok top ->
     current_user_recently_played sp = Raise e ->
     get_spotify_suggestions strptime_ms sp now = [] /\
     run (get_spotify_suggestions_io strptime_ms sp now) =
       (Ok [], ["Fetching top tracks..."; "Fetching recent tracks...";
                "Error getting suggestions: " ++ exn_str e])) /\
  (forall (entries : list song) (i : nat) (entry : song) (v : value) (e : exn),
     entries !! i = Some entry ->
     entry !! "release_year" = None ->
     entry !! "id" = Some v ->
     track sp v = Raise e ->
     length (load_rankings (Some sp) (Some entries)) = length entries /\
     load_rankings (Some sp) (Some entries) !! i =
       Some (<["release_year" := VStr "N/A"]> entry)).
Proof.
  unfold get_spotify_suggestions, run, get_spotify_suggestions_io, try_except.
  unfold mbind, io_bind, print, lift, mret, io_ret.
  split; [|split; [|split]].
  - destruct (current_user_top_tracks sp) as [top|e]; [|simpl; eauto].
    destruct (current_user_recently_played sp) as [recent|e]; [|simpl; eauto].
    destruct (count_plays _ _ recent ∅) as [pc|e]; [|simpl; eauto].
    destruct (collect pc top ∅ []) as [found|e]; simpl; eauto.
  - by intros e ->.
  - by intros top e -> ->.
  - intros entries i entry v e Hi Hy Hid Hv.
    destruct (backfill_missing (Some sp) entry Hy) as (y & Hb & _ & Hfail).
    split; [apply length_fmap|].
    simpl. rewrite list_lookup_fmap, Hi. simpl.
    by rewrite Hb, (Hfail sp v e).
Qed.

(** ** The normalizer *)

(** C5, as the program has it.  For a track with an artist and a string as
    release date, both copies of the normalizer return a dictionary whose
    release year is the first four characters of that string.  They have no
    fallback: without a string as release date they raise. *)
Theorem normalizer_release_year (pc : gmap string Z) (t : raw_track) :
  (forall (d : string) (a : artist) (others : list artist),
     release_date (track_album t) = Some (VStr d) ->
     artists t = a :: others ->
     exists e e' : song,
       search_entry t = Ok e /\ suggestion_entry pc t = Ok e' /\
       e !! "release_year" = Some (VStr (substring 0 4 d)) /\
       e' !! "release_year" = Some (VStr (substring 0 4 d))) /\
  ((forall d : string, release_date (track_album t) <> Some (VStr d)) ->
   forall e : song, search_entry t <> Ok e /\ suggestion_entry pc t <> Ok e).
Proof.
  unfold search_entry, suggestion_entry, release_year_of. split.
  - intros d a others -> ->. simpl. eexists _, _. repeat split; reflexivity.
  - intros Hd e.
    destruct (release_date (track_album t)) as [[| |d]|];
      [| |by destruct (Hd d)|];
      destruct (artists t) as [|a others]; split; discriminate.
Qed.

Lemma search_entry_no_rank (t : raw_track) (e : song) :
  search_entry t = Ok e -> e !! "rank" = None.
Proof.
  unfold search_entry. intros H.
  apply bind_Ok in H as (a & _ & H). apply bind_Ok in H as (y & _ & H).
  by injection H as <-.
Qed.

(** ** The Add buttons *)

Lemma add_song_present (l : nat) (rank : Z) (s : session) :
  deref (heap s) l ∈ ranking s -> add_song l rank s = Ok s.
Proof. intros H. unfold add_song. by rewrite decide_True. Qed.

Lemma add_song_absent (l : nat) (rank : Z) (s s' : session) :
  deref (heap s) l ∉ ranking s ->
  add_song l rank s = Ok s' ->
  ranked_songs s' ≡ₚ (ranked_songs s ++ [l])%list /\
  length (ranking s') = S (length (ranking s)) /\
  sorted_by_rank (ranking s') /\
  rankings_json s' = Some (ranking s').
Proof.
  intros Hnew H. unfold add_song in H. rewrite decide_False in H by done.
  apply bind_Ok in H as (sorted & Hs & H). injection H as <-.
  apply sorted_by_rank_key in Hs as [Hperm Hsorted].
  repeat split; simpl; [done| |done].
  unfold ranking, songs_at. simpl.
  rewrite !length_fmap, Hperm, length_app. simpl. lia.
Qed.

(** A search hit has no rank yet, so it equals no entry that has one. *)
Lemma search_hit_not_in_ranking (t : raw_track) (e : song) (l : list song) :
  search_entry t = Ok e ->
  Forall (fun s : song => is_Some (s !! "rank")) l -> e ∉ l.
Proof.
  intros He Hl Hin. apply search_entry_no_rank in He.
  rewrite Forall_forall in Hl. destruct (Hl e Hin) as [v Hv]. congruence.
Qed.

(** C2, at the failing input.  The ranking holds a search hit at rank 1;
    the same hit is added at rank 1 again.  The test of line 309 compares
    the hit before it has a rank, finds no equal entry, and the hit is
    appended and saved a second time. *)
Theorem add_repeats_ranked_search_hit :
  exists s1 s2 : session,
    handle sample_strptime_ms (AddSearchResult sample_sp "never" 0 1)
      (new_session None) = Ok s1 /\
    ranking s1 = [never_gonna_ranked] /\
    handle sample_strptime_ms (AddSearchResult sample_sp "never" 0 1) s1 = Ok s2 /\
    ranking s2 = [never_gonna_ranked; never_gonna_ranked] /\
    rankings_json s2 = Some [never_gonna_ranked; never_gonna_ranked].
Proof.
  eexists. eexists.
  split; [vm_compute; reflexivity|].
  split; [vm_compute; reflexivity|].
  split; [vm_compute; reflexivity|].
  split; vm_compute; reflexivity.
Qed.

(** ** Where the program differs *)

(** C5 at a track without release date: both copies of the normalizer raise
    KeyError, [search_spotify] passes it on and the suggestions come back
    empty; a release date of two characters is kept as it is. *)
Lemma normalizer_raises_without_release_date :
  release_date (track_album undated) = None /\
  search_entry undated = Raise (KeyError "release_date") /\
  suggestion_entry ∅ undated = Raise (KeyError "release_date") /\
  search_spotify
    {| current_user_top_tracks := Ok [undated];
       current_user_recently_played := Ok [];
       search := fun _ => Ok [undated];
       track := fun _ => Ok undated |} "demo" = Raise (KeyError "release_date") /\
  get_spotify_suggestions sample_strptime_ms
    {| current_user_top_tracks := Ok [africa; undated];
       current_user_recently_played := Ok [];
       search := fun _ => Ok [undated];
       track := fun _ => Ok undated |} sample_now = [] /\
  exists e : song,
    search_entry short_dated = Ok e /\ e !! "release_year" = Some (VStr "19").
Proof.
  repeat split; try reflexivity.
  eexists. split; reflexivity.
Qed.

(** C6 at a provider that fails: the error of the search call leaves
    [search_spotify] and the run of the page as it is, and the error of the
    single-track lookup is answered with "N/A", not with an empty result. *)
Lemma provider_error_outcomes :
  search offline_sp "africa" = Raise (ProviderError "HTTP 503") /\
  search_spotify offline_sp "africa" = Raise (ProviderError "HTTP 503") /\
  handle sample_strptime_ms (AddSearchResult offline_sp "africa" 0 1)
    (new_session None) = Raise (ProviderError "HTTP 503") /\
  track offline_sp (VStr "2374M0fQpWi3dLnB54qaLX") = Raise (ProviderError "HTTP 503") /\
  load_rankings (Some offline_sp) (Some [old_entry]) =
    [<["release_year" := VStr "N/A"]> old_entry].
Proof. repeat split; reflexivity. Qed.


(** ** The properties on the sample data *)

Example next_rank_of_1_2_4 : get_next_available_rank ranks_1_2_4 = Ok 3%Z.
Proof. vm_compute. reflexivity. Qed.

Example sample_suggestion_ids :
  song_id <$> get_spotify_suggestions sample_strptime_ms sample_sp sample_now =
  [id africa; id never_gonna].
Proof. vm_compute. reflexivity. Qed.

Example africa_plays_in_last_year :
  plays_in_last_year sample_strptime_ms sample_now (id africa) sample_recent = 2.
Proof. vm_compute. reflexivity. Qed.

Lemma next_available_rank_witness :
  Forall (fun s : song => is_Some (s !! "rank")) ranks_1_2_4 /\
  exists r : Z,
    get_next_available_rank ranks_1_2_4 = Ok r /\
    (((1 <= r <= 2000)%Z /\ ~ rank_taken ranks_1_2_4 r /\
      forall k, (1 <= k < r)%Z -> rank_taken ranks_1_2_4 k) \/
     (r = 2000%Z /\ forall k, (1 <= k <= 2000)%Z -> rank_taken ranks_1_2_4 k)).
Proof.
  assert (Forall (fun s : song => is_Some (s !! "rank")) ranks_1_2_4) as H.
  { repeat constructor; eexists; reflexivity. }
  split; [exact H|]. exact (next_available_rank_is_lowest_free ranks_1_2_4 H).
Defined.


Lemma reachable_replay (strptime_ms : string -> result Z) (evs : list event)
    (s : session) :
  reachable strptime_ms s -> reachable strptime_ms (replay strptime_ms evs s).
Proof.
  revert s. induction evs as [|ev evs IH]; intros s Hs; simpl; [done|].
  destruct (handle strptime_ms ev s) as [s'|e] eqn:Hstep; [|done].
  apply IH. eapply reach_step; eassumption.
Qed.

Lemma ranking_sorted_witness :
  reachable sample_strptime_ms
    (replay sample_strptime_ms sample_events (new_session None)) /\
  sorted_by_rank
    (ranking (replay sample_strptime_ms sample_events (new_session None))).
Proof.
  assert (reachable sample_strptime_ms
            (replay sample_strptime_ms sample_events (new_session None))) as H.
  { apply reachable_replay, reach_start. }
  split; [exact H|]. exact (ranking_stays_sorted sample_strptime_ms _ H).
Defined.

Example sample_session_ranks :
  (fun s : song => s !! "rank") <$>
    ranking (replay sample_strptime_ms sample_events (new_session None)) =
  [Some (VInt 1); Some (VInt 3); Some (VInt 9)].
Proof. vm_compute. reflexivity. Qed.

Lemma load_fills_release_year_witness :
  [old_entry] !! 0 = Some old_entry /\
  old_entry !! "release_year" = None /\
  load_rankings (Some sample_sp) (Some [old_entry]) !! 0 =
    Some (<["release_year" := VStr "1987"]> old_entry) /\
  load_rankings (Some no_lookup_sp) (Some [old_entry]) !! 0 =
    Some (<["release_year" := VStr "N/A"]> old_entry).
Proof.
  split; [reflexivity|]. split; [reflexivity|]. split.
  - destruct (load_fills_release_year (Some sample_sp) [old_entry] 0 old_entry
                eq_refl eq_refl) as (_ & _ & _ & y & Hl & Hfound & _).
    rewrite Hl.
    by rewrite (Hfound sample_sp (VStr "2374M0fQpWi3dLnB54qaLX") never_gonna
                  "1987-11-12" eq_refl eq_refl eq_refl eq_refl).
  - destruct (load_fills_release_year (Some no_lookup_sp) [old_entry] 0 old_entry
                eq_refl eq_refl) as (_ & _ & _ & y & Hl & _ & Hfail & _).
    rewrite Hl.
    by rewrite (Hfail no_lookup_sp (VStr "2374M0fQpWi3dLnB54qaLX")
                  (ProviderError "HTTP 404") eq_refl eq_refl eq_refl).
Defined.

Example old_entry_backfilled :
  load_rankings (Some sample_sp) (Some [old_entry]) =
    [<["release_year" := VStr "1987"]> old_entry] /\
  load_rankings (Some no_lookup_sp) (Some [old_entry]) =
    [<["release_year" := VStr "N/A"]> old_entry] /\
  ranking (new_session (Some [old_entry])) =
    [<["release_year" := VStr "N/A"]> old_entry].
Proof. repeat split; vm_compute; reflexivity. Qed.


Lemma provider_errors_witness :
  current_user_top_tracks offline_sp = Raise (ProviderError "HTTP 503") /\
  get_spotify_suggestions sample_strptime_ms offline_sp sample_now = [] /\
  run (get_spotify_suggestions_io sample_strptime_ms offline_sp sample_now) =
    (Ok [], ["Fetching top tracks..."; "Error getting suggestions: HTTP 503"]).
Proof.
  split; [reflexivity|].
  exact (proj1 (proj2 (provider_errors_degrade sample_strptime_ms offline_sp
                         sample_now)) (ProviderError "HTTP 503") eq_refl).
Defined.

Lemma normalizer_release_year_witness :
  release_date (track_album never_gonna) = Some (VStr "1987-11-12") /\
  exists e e' : song,
    search_entry never_gonna = Ok e /\ suggestion_entry ∅ never_gonna = Ok e' /\
    e !! "release_year" = Some (VStr "1987") /\
    e' !! "release_year" = Some (VStr "1987").
Proof.
  split; [reflexivity|].
  exact (proj1 (normalizer_release_year ∅ never_gonna) "1987-11-12"
           {| artist_name := "Rick Astley" |} [] eq_refl eq_refl).
Defined.

(** * Further properties of the program *)

(** ** move_to_position *)

Lemma py_index_in_range (len : nat) (i : Z) :
  (- Z.of_nat len <= i < Z.of_nat len)%Z ->
  py_index len i = Some (Z.to_nat (i mod Z.of_nat len)) /\
  Z.to_nat (i mod Z.of_nat len) < len.
Proof.
  intros Hi. unfold py_index.
  destruct (decide (0 <= i < Z.of_nat len)%Z) as [Hpos|Hneg].
  - rewrite Z.mod_small by lia. split; [done | lia].
  - rewrite decide_True by lia.
    assert (i mod Z.of_nat len = Z.of_nat len + i)%Z as ->.
    { symmetry. apply (Z.mod_unique_pos i (Z.of_nat len) (-1)); lia. }
    split; [done | lia].
Qed.

Lemma py_index_out_of_range (len : nat) (i : Z) :
  ~ (- Z.of_nat len <= i < Z.of_nat len)%Z -> py_index len i = None.
Proof.
  intros Hi. unfold py_index.
  rewrite decide_False by lia. by rewrite decide_False by lia.
Qed.

Lemma list_insert_at_nonneg {A} (l : list A) (i : Z) (x : A) :
  (0 <= i <= Z.of_nat (length l))%Z ->
  list_insert_at l i x =
    (take (Z.to_nat i) l ++ x :: drop (Z.to_nat i) l)%list.
Proof.
  intros Hi. unfold list_insert_at. rewrite decide_False by lia.
  by rewrite Z.min_l by lia.
Qed.

Lemma lookup_inserted {A} (l : list A) (n : nat) (x : A) :
  n <= length l -> (take n l ++ x :: drop n l)%list !! n = Some x.
Proof.
  intros Hn. rewrite lookup_app_r by (rewrite length_take; lia).
  rewrite length_take. by replace (n - n `min` length l) with 0 by lia.
Qed.

Lemma delete_inserted {A} (l : list A) (n : nat) (x : A) :
  n <= length l -> delete n (take n l ++ x :: drop n l)%list = l.
Proof.
  intros Hn.
  rewrite <- (length_take_le l n Hn) at 1.
  by rewrite delete_middle, take_drop.
Qed.

Lemma insert_deleted {A} (l : list A) (n : nat) (x : A) :
  l !! n = Some x ->
  (take n (delete n l) ++ x :: drop n (delete n l))%list = l.
Proof.
  intros Hx. pose proof (lookup_lt_Some _ _ _ Hx) as Hn.
  rewrite delete_take_drop.
  rewrite take_app_length' by (rewrite length_take; lia).
  rewrite drop_app_length' by (rewrite length_take; lia).
  by apply take_drop_middle.
Qed.

(** X1. With [new_idx] a position of the list and [old_idx] an index the
    list has (negative ones count from the end), [move_to_position] returns
    True; the song of [old_idx] is then at [new_idx], the other songs keep
    their order, and no song is lost or added. *)
Theorem move_to_position_moves {A} (songs : list A) (old_idx new_idx : Z) :
  (0 <= new_idx < Z.of_nat (length songs))%Z ->
  (- Z.of_nat (length songs) <= old_idx < Z.of_nat (length songs))%Z ->
  let o := Z.to_nat (old_idx mod Z.of_nat (length songs)) in
  let n := Z.to_nat new_idx in
  exists (x : A) (songs' : list A),
    songs !! o = Some x /\
    move_to_position songs old_idx new_idx = Ok (songs', true) /\
    songs' !! n = Some x /\
    delete n songs' = delete o songs /\
    length songs' = length songs /\
    songs' ≡ₚ songs.
Proof.
  intros Hnew Hold o n.
  destruct (py_index_in_range _ _ Hold) as [Hidx Ho]. fold o in Hidx, Ho.
  destruct (lookup_lt_is_Some_2 songs o Ho) as [x Hx].
  assert (length (delete o songs) = length songs - 1) as Hlen.
  { rewrite length_delete by eauto. lia. }
  exists x, (take n (delete o songs) ++ x :: drop n (delete o songs))%list.
  split; [done|]. split.
  { unfold move_to_position, list_pop. rewrite decide_True by done.
    rewrite Hidx, Hx. simpl. by rewrite list_insert_at_nonneg by lia. }
  split; [apply lookup_inserted; lia|].
  split; [apply delete_inserted; lia|].
  split.
  - rewrite length_app, length_take. simpl. rewrite length_drop. lia.
  - rewrite <- Permutation_middle, take_drop.
    symmetry. by apply delete_Permutation.
Qed.

(** X2. When [new_idx] is no position of the list, [move_to_position]
    returns False and leaves the list alone, whatever [old_idx] is; this is
    always so for the empty list.  When [new_idx] is a position and
    [old_idx] is no index of the list, [pop] raises: IndexError when
    [old_idx] fits a C [ssize_t], OverflowError when it does not. *)
Theorem move_to_position_out_of_range {A} (songs : list A) (old_idx new_idx : Z) :
  (~ (0 <= new_idx < Z.of_nat (length songs))%Z ->
   move_to_position songs old_idx new_idx = Ok (songs, false)) /\
  (songs = [] -> move_to_position songs old_idx new_idx = Ok ([], false)) /\
  ((0 <= new_idx < Z.of_nat (length songs))%Z ->
   ~ (- Z.of_nat (length songs) <= old_idx < Z.of_nat (length songs))%Z ->
   (fits_ssize_t old_idx ->
    move_to_position songs old_idx new_idx = Raise IndexError) /\
   (~ fits_ssize_t old_idx ->
    move_to_position songs old_idx new_idx = Raise OverflowError)).
Proof.
  unfold move_to_position. split; [|split].
  - intros H. by rewrite decide_False.
  - intros ->. rewrite decide_False; [done | simpl; lia].
  - intros Hn Ho. rewrite decide_True by done. unfold list_pop.
    rewrite py_index_out_of_range by done.
    split; intros Hfit; [by rewrite decide_True | by rewrite decide_False].
Qed.

(** X3. Moving a song from [old_idx] to [new_idx] and then from [new_idx]
    back to [old_idx] gives the list one started with. *)
Theorem move_to_position_back {A} (songs : list A) (old_idx new_idx : Z) :
  (0 <= old_idx < Z.of_nat (length songs))%Z ->
  (0 <= new_idx < Z.of_nat (length songs))%Z ->
  exists songs' : list A,
    move_to_position songs old_idx new_idx = Ok (songs', true) /\
    move_to_position songs' new_idx old_idx = Ok (songs, true).
Proof.
  intros Hold Hnew.
  destruct (move_to_position_moves songs old_idx new_idx Hnew ltac:(lia))
    as (x & songs' & Hx & Hmove & Hx' & Hdel & Hlen & _).
  rewrite Z.mod_small in Hx, Hdel by lia.
  exists songs'. split; [done|].
  unfold move_to_position, list_pop. rewrite Hlen, decide_True by done.
  unfold py_index. rewrite decide_True by done. rewrite Hx'. simpl.
  rewrite Hdel, list_insert_at_nonneg.
  - by rewrite insert_deleted.
  - rewrite length_delete by eauto. lia.
Qed.

(** ** Loops that stop at the first exception *)

Lemma for_each_Raise {A B} (f : A -> result B) (l : list A) (e : exn) :
  for_each f l = Raise e -> exists x, x ∈ l /\ f x = Raise e.
Proof.
  induction l as [|x l IH]; simpl; [discriminate|].
  destruct (f x) as [y|e'] eqn:Hx; simpl.
  - destruct (for_each f l) as [ys|e'']; simpl; [discriminate|].
    intros [= <-]. destruct (IH eq_refl) as (x' & Hin & Hx').
    exists x'. split; [by right | done].
  - intros [= <-]. exists x. split; [left | done].
Qed.

Lemma for_each_raises {A B} (f : A -> result B) (l : list A) (x : A) (e : exn) :
  x ∈ l -> f x = Raise e -> exists e', for_each f l = Raise e'.
Proof.
  intros Hin Hx. induction l as [|x0 l IH]; [inversion Hin|]. simpl.
  destruct (f x0) as [y|e0] eqn:Hx0; simpl; [|eauto].
  apply elem_of_cons in Hin as [->|Hin]; [congruence|].
  destruct (IH Hin) as [e' ->]. simpl. eauto.
Qed.

(** ** get_next_available_rank, beyond C1 *)

Lemma first_free_bounds (taken : gset value) :
  (1 <= first_free taken (seqZ 1 2000) <= 2000)%Z.
Proof.
  pose proof (first_free_seqZ taken 2000 1) as H.
  cbn zeta in H. change (Z.of_nat 2000) with 2000%Z in H.
  destruct H as [(Hb & _)|(Hb & _)]; lia.
Qed.

Lemma get_next_available_rank_nonempty (ranked_songs : list song) :
  ranked_songs <> [] ->
  get_next_available_rank ranked_songs =
    match for_each (get_item "rank") ranked_songs with
    | Ok ranks => Ok (first_free (list_to_set ranks) (seqZ 1 2000))
    | Raise e => Raise e
    end.
Proof. intros Hne. destruct ranked_songs; [congruence | reflexivity]. Qed.

(** X4. Over stores whose values are None, integers or strings, as [value]
    has them (a rank that cannot be hashed, such as a list read from the
    file, is none of these and is not covered): whatever
    [get_next_available_rank] returns lies in 1..2000; it raises exactly
    when an entry of the store has no 'rank' key, and then KeyError 'rank';
    a rank that is None or a string does not make it raise. *)
Theorem next_available_rank_errors (ranked_songs : list song) :
  (forall r : Z,
     get_next_available_rank ranked_songs = Ok r -> (1 <= r <= 2000)%Z) /\
  (forall e : exn,
     get_next_available_rank ranked_songs = Raise e ->
     e = KeyError "rank" /\
     exists s : song, s ∈ ranked_songs /\ s !! "rank" = None) /\
  (forall s : song,
     s ∈ ranked_songs -> s !! "rank" = None ->
     get_next_available_rank ranked_songs = Raise (KeyError "rank")).
Proof.
  assert (forall (s : song) e, get_item "rank" s = Raise e ->
            e = KeyError "rank" /\ s !! "rank" = None) as Hget.
  { intros s e. unfold get_item. destruct (s !! "rank"); [discriminate|].
    by intros [= <-]. }
  destruct (decide (ranked_songs = [])) as [->|Hne].
  { split; [|split].
    - intros r Hr. change (Ok 1%Z = Ok r) in Hr. assert (r = 1%Z) as -> by congruence. lia.
    - intros e He. change (@Ok Z 1%Z = Raise e) in He. discriminate.
    - intros s Hs. inversion Hs. }
  rewrite (get_next_available_rank_nonempty _ Hne).
  destruct (for_each (get_item "rank") ranked_songs) as [ranks|e'] eqn:Hr.
  - split; [|split].
    + intros r H. assert (r = first_free (list_to_set ranks) (seqZ 1 2000)) as ->
        by congruence.
      apply first_free_bounds.
    + intros e H. congruence.
    + intros s Hin Hnone.
      destruct (for_each_raises (get_item "rank") ranked_songs s (KeyError "rank") Hin)
        as [e Hr']; [|congruence].
      unfold get_item. by rewrite Hnone.
  - apply for_each_Raise in Hr as (s & Hin & Hs).
    destruct (Hget s e' Hs) as [-> Hnone]. split; [|split].
    + intros r H. congruence.
    + intros e H. assert (e = KeyError "rank") as -> by congruence. eauto.
    + done.
Qed.

(** ** search_spotify *)

Lemma normalizable_search_entry (t : raw_track) :
  normalizable t = true <-> exists e, search_entry t = Ok e.
Proof.
  unfold normalizable, search_entry, release_year_of.
  destruct (artists t) as [|a others];
    destruct (release_date (track_album t)) as [[| |d]|]; simpl;
    split; try discriminate; try (intros [e ?]; discriminate); eauto.
Qed.

Lemma normalizable_suggestion_entry (pc : gmap string Z) (t : raw_track) :
  normalizable t = true <-> exists e, suggestion_entry pc t = Ok e.
Proof.
  unfold normalizable, suggestion_entry, release_year_of.
  destruct (artists t) as [|a others];
    destruct (release_date (track_album t)) as [[| |d]|]; simpl;
    split; try discriminate; try (intros [e ?]; discriminate); eauto.
Qed.

Lemma not_normalizable_raises (t : raw_track) :
  normalizable t = false ->
  exists e, search_entry t = Raise e /\
            (e = IndexError \/ e = KeyError "release_date" \/ e = TypeError).
Proof.
  unfold normalizable, search_entry, release_year_of.
  destruct (artists t) as [|a others];
    destruct (release_date (track_album t)) as [[| |d]|]; simpl;
    try discriminate; eauto 6.
Qed.

Lemma search_entry_fields (t : raw_track) (e : song) :
  search_entry t = Ok e ->
  song_id e = id t /\ dom e = list_to_set base_keys.
Proof.
  unfold search_entry. intros H.
  apply bind_Ok in H as (a & _ & H). apply bind_Ok in H as (y & _ & H).
  injection H as <-. split; [done|].
  rewrite !dom_insert_L, dom_empty_L. simpl.
  by rewrite !(assoc_L (∪)).
Qed.

(** X5. For a query that is not empty and hits that can all be normalized,
    [search_spotify] returns one dictionary per hit, in the order of the
    hits and without dropping repeated ids; each has exactly the six keys
    id, name, artist, full_name, image_url and release_year, so neither a
    rank nor a play count. *)
Theorem search_spotify_results (sp : spotify) (query : string)
    (hits : list raw_track) :
  query <> "" ->
  search sp query = Ok hits ->
  Forall (fun t => normalizable t = true) hits ->
  exists results : list song,
    search_spotify sp query = Ok results /\
    song_id <$> results = id <$> hits /\
    Forall (fun e : song => dom e = list_to_set base_keys) results.
Proof.
  intros Hq Hhits Hall. unfold search_spotify.
  rewrite decide_False by done. rewrite Hhits. simpl.
  destruct (for_each_total search_entry hits) as [results Hres].
  { eapply Forall_impl; [exact Hall|]. intros t Ht.
    by apply normalizable_search_entry. }
  exists results. split; [done|].
  apply for_each_Ok in Hres. clear Hhits. revert Hall.
  induction Hres as [|t e ts es He _ IH]; intros Hall; [by split|].
  apply Forall_cons in Hall as [_ Hall]. destruct (IH Hall) as [IH1 IH2].
  apply search_entry_fields in He as [Hid Hdom].
  split; [by rewrite !fmap_cons, Hid, IH1 | by constructor].
Qed.

(** X6. [search_spotify] has no handler: an exception of the search call
    leaves it unchanged, and one hit that cannot be normalized (no artist,
    or a release date that is missing or no string) makes the whole call
    raise, wherever the hit stands among the others. *)
Theorem search_spotify_raises (sp : spotify) (query : string) :
  query <> "" ->
  (forall e : exn, search sp query = Raise e -> search_spotify sp query = Raise e) /\
  (forall (hits : list raw_track) (t : raw_track),
     search sp query = Ok hits -> t ∈ hits -> normalizable t = false ->
     exists e : exn,
       search_spotify sp query = Raise e /\
       (e = IndexError \/ e = KeyError "release_date" \/ e = TypeError)).
Proof.
  intros Hq. unfold search_spotify. rewrite decide_False by done. split.
  - by intros e ->.
  - intros hits t -> Hin Hbad. simpl.
    destruct (not_normalizable_raises t Hbad) as (e0 & He0 & _).
    destruct (for_each_raises search_entry hits t e0 Hin He0) as [e He].
    exists e. split; [done|].
    apply for_each_Raise in He as (t' & _ & Ht').
    destruct (normalizable t') eqn:Hn.
    + apply normalizable_search_entry in Hn as [e' He']. congruence.
    + destruct (not_normalizable_raises t' Hn) as (e1 & He1 & Hcases). congruence.
Qed.

(** ** get_spotify_suggestions, beyond C3, C4 and C10 *)

Lemma index_of_cons_ne (x y : string) (l : list string) (i : nat) :
  y <> x -> index_of x l = Some i -> index_of x (y :: l) = Some (S i).
Proof. intros Hne Hi. simpl. rewrite decide_False by done. by rewrite Hi. Qed.

(** The loop keeps a track exactly when it is the first one with its id. *)
Lemma kept_is_first (top : list raw_track) (seen : gset string) (t : raw_track) :
  t ∈ kept seen top ->
  (id t ∉ seen) /\
  exists i, top !! i = Some t /\ index_of (id t) (id <$> top) = Some i.
Proof.
  revert seen. induction top as [|t0 rest IH]; intros seen Ht; simpl in Ht.
  - inversion Ht.
  - destruct (decide (id t0 ∈ seen)) as [Hseen|Hnew].
    + destruct (IH _ Ht) as (Hns & i & Hi & Hidx). split; [done|].
      exists (S i). split; [done|]. rewrite fmap_cons.
      apply index_of_cons_ne; [|done]. intros Heq. apply Hns. by rewrite <- Heq.
    + apply elem_of_cons in Ht as [->|Ht].
      * split; [done|]. exists 0. split; [done|].
        rewrite fmap_cons. simpl. by rewrite decide_True.
      * destruct (IH _ Ht) as (Hns & i & Hi & Hidx).
        split; [intros Hin; apply Hns, elem_of_union; by right|].
        exists (S i). split; [done|]. rewrite fmap_cons.
        apply index_of_cons_ne; [|done]. intros Heq. apply Hns, elem_of_union.
        left. by apply elem_of_singleton.
Qed.

Lemma first_is_kept (top : list raw_track) (seen : gset string) (t : raw_track)
    (i : nat) :
  top !! i = Some t -> index_of (id t) (id <$> top) = Some i -> id t ∉ seen ->
  t ∈ kept seen top.
Proof.
  revert seen i. induction top as [|t0 rest IH]; intros seen i Hi Hidx Hns.
  - discriminate.
  - rewrite fmap_cons in Hidx. simpl in Hidx. simpl.
    destruct (decide (id t0 = id t)) as [Heq|Hne].
    + injection Hidx as <-. injection Hi as ->.
      rewrite decide_False by done. left.
    + destruct i as [|i].
      { destruct (index_of (id t) (id <$> rest)); discriminate. }
      simpl in Hi.
      destruct (index_of (id t) (id <$> rest)) as [j|] eqn:Hj; [|discriminate].
      injection Hidx as ->.
      destruct (decide (id t0 ∈ seen)).
      * by eapply IH.
      * right. eapply IH; [done..|].
        intros Hin. apply elem_of_union in Hin as [Hin|Hin]; [|done].
        apply elem_of_singleton in Hin. congruence.
Qed.

Lemma kept_complete (top : list raw_track) (seen : gset string) (x : string) :
  x ∈ id <$> top -> x ∉ seen -> x ∈ id <$> kept seen top.
Proof.
  revert seen. induction top as [|t0 rest IH]; intros seen Hx Hns.
  - inversion Hx.
  - rewrite fmap_cons in Hx. simpl.
    destruct (decide (id t0 ∈ seen)) as [Hseen|Hnew].
    + apply elem_of_cons in Hx as [->|Hx]; [done|]. by apply IH.
    + rewrite fmap_cons. destruct (decide (x = id t0)) as [->|Hne]; [left|].
      right. apply elem_of_cons in Hx as [->|Hx]; [done|]. apply IH; [done|].
      intros Hin. apply elem_of_union in Hin as [Hin|Hin]; [|done].
      by apply elem_of_singleton in Hin.
Qed.

Section SuggestionRuns.

Variable strptime_ms : string -> result Z.

Lemma count_plays_total (year_ago : Z) (recent : list played_item)
    (pc0 : gmap string Z) :
  Forall (fun item => exists ms, strptime_ms (played_at item) = Ok ms) recent ->
  exists pc, count_plays strptime_ms year_ago recent pc0 = Ok pc.
Proof.
  intros H. revert pc0. induction H as [|item rest [ms Hms] _ IH]; intros pc0.
  - simpl. eauto.
  - simpl. rewrite Hms. simpl. apply IH.
Qed.

Lemma count_plays_raises (year_ago : Z) (recent : list played_item)
    (pc0 : gmap string Z) (item : played_item) (e : exn) :
  item ∈ recent -> strptime_ms (played_at item) = Raise e ->
  exists e', count_plays strptime_ms year_ago recent pc0 = Raise e'.
Proof.
  intros Hin He. revert pc0.
  induction recent as [|item0 rest IH]; intros pc0; [inversion Hin|]. simpl.
  destruct (strptime_ms (played_at item0)) as [ms|e0] eqn:H0; simpl; [|eauto].
  apply elem_of_cons in Hin as [->|Hin]; [congruence|]. by apply IH.
Qed.

Lemma collect_total (pc : gmap string Z) (top : list raw_track)
    (seen : gset string) (acc : list song) :
  Forall (fun t => normalizable t = true) (kept seen top) ->
  exists out, collect pc top seen acc = Ok out.
Proof.
  revert seen acc. induction top as [|t rest IH]; intros seen acc H; simpl in *.
  - eauto.
  - destruct (decide (id t ∈ seen)); [by apply IH|].
    apply Forall_cons in H as [Ht H].
    apply (normalizable_suggestion_entry pc) in Ht as [e ->]. simpl. by apply IH.
Qed.

Lemma collect_raises (pc : gmap string Z) (top : list raw_track)
    (seen : gset string) (acc : list song) (t : raw_track) :
  t ∈ kept seen top -> normalizable t = false ->
  exists e, collect pc top seen acc = Raise e.
Proof.
  revert seen acc. induction top as [|t0 rest IH]; intros seen acc Hin Hbad;
    simpl in *.
  - inversion Hin.
  - destruct (decide (id t0 ∈ seen)); [by apply IH|].
    destruct (suggestion_entry pc t0) as [e0|e0] eqn:H0; simpl; [|eauto].
    apply elem_of_cons in Hin as [->|Hin]; [|by apply IH].
    assert (normalizable t0 = true) as Hgood.
    { apply (normalizable_suggestion_entry pc). eauto. }
    congruence.
Qed.

(** X7. When both fetches answer, every timestamp parses and every top
    track that is the first with its id can be normalized, the run prints
    its two progress lines and nothing else, and the suggestions hold the id
    of every top track; in particular they are not empty unless the top
    tracks are.  A later track with an id already seen is skipped before it
    is read, so it need not be well formed. *)
Theorem suggestions_complete (sp : spotify) (now : Z) (top : list raw_track)
    (recent : list played_item) :
  current_user_top_tracks sp = Ok top ->
  current_user_recently_played sp = Ok recent ->
  Forall (fun item => exists ms, strptime_ms (played_at item) = Ok ms) recent ->
  (forall (i : nat) (t : raw_track),
     top !! i = Some t -> index_of (id t) (id <$> top) = Some i ->
     normalizable t = true) ->
  let out := get_spotify_suggestions strptime_ms sp now in
  run (get_spotify_suggestions_io strptime_ms sp now) =
    (Ok out, ["Fetching top tracks..."; "Fetching recent tracks..."]) /\
  (forall t : raw_track, t ∈ top -> id t ∈ song_id <$> out) /\
  (top <> [] -> out <> []).
Proof.
  intros Htop Hrecent Hparse Hfirst out.
  destruct (count_plays_total (now - year_ms) recent ∅ Hparse) as [pc Hpc].
  destruct (collect_total pc top ∅ []) as [found Hfound].
  { apply Forall_forall. intros t Ht.
    apply kept_is_first in Ht as (_ & i & Hi & Hidx). eauto. }
  assert (run (get_spotify_suggestions_io strptime_ms sp now) =
            (Ok found, ["Fetching top tracks..."; "Fetching recent tracks..."]))
    as Hrun.
  { unfold run, get_spotify_suggestions_io, try_except.
    unfold mbind, io_bind, print, lift, mret, io_ret.
    by rewrite Htop, Hrecent, Hpc, Hfound. }
  assert (out = found) as ->.
  { subst out. unfold get_spotify_suggestions. by rewrite Hrun. }
  split; [done|].
  apply collect_kept in Hfound as (new & -> & Hnew). simpl.
  assert (song_id <$> new = id <$> kept ∅ top) as Hids.
  { clear -Hnew. induction Hnew as [|t e ts es He _ IH]; [done|].
    apply suggestion_entry_fields in He as [He _].
    by rewrite !fmap_cons, IH, He. }
  split.
  - intros t Ht. rewrite Hids. apply kept_complete.
    + by apply list_elem_of_fmap_2.
    + apply not_elem_of_empty.
  - intros Hne ->. destruct top as [|t rest]; [done|].
    simpl in Hids. rewrite decide_False in Hids by apply not_elem_of_empty.
    discriminate.
Qed.

(** X8. One recently played item whose [played_at] the parser rejects
    empties the suggestions, however good the top tracks are: the run ends
    in the [except] branch and prints the error. *)
Theorem unparsable_played_at_empties_suggestions (sp : spotify) (now : Z)
    (top : list raw_track) (recent : list played_item) (item : played_item)
    (e : exn) :
  current_user_top_tracks sp = Ok top ->
  current_user_recently_played sp = Ok recent ->
  item ∈ recent ->
  strptime_ms (played_at item) = Raise e ->
  get_spotify_suggestions strptime_ms sp now = [] /\
  exists e' : exn,
    run (get_spotify_suggestions_io strptime_ms sp now) =
      (Ok [], ["Fetching top tracks..."; "Fetching recent tracks...";
               "Error getting suggestions: " ++ exn_str e']).
Proof.
  intros Htop Hrecent Hin He.
  destruct (count_plays_raises (now - year_ms) recent ∅ item e Hin He) as [e' Hpc].
  assert (run (get_spotify_suggestions_io strptime_ms sp now) =
            (Ok [], ["Fetching top tracks..."; "Fetching recent tracks...";
                     "Error getting suggestions: " ++ exn_str e'])) as Hrun.
  { unfold run, get_spotify_suggestions_io, try_except.
    unfold mbind, io_bind, print, lift, mret, io_ret.
    by rewrite Htop, Hrecent, Hpc. }
  split; [|eauto]. unfold get_spotify_suggestions. by rewrite Hrun.
Qed.

(** X9. One top track that is the first with its id and cannot be
    normalized (no artist, or a release date that is missing or no string)
    empties the suggestions, whatever the other tracks are. *)
Theorem malformed_top_track_empties_suggestions (sp : spotify) (now : Z)
    (top : list raw_track) (i : nat) (t : raw_track) :
  current_user_top_tracks sp = Ok top ->
  top !! i = Some t ->
  index_of (id t) (id <$> top) = Some i ->
  normalizable t = false ->
  get_spotify_suggestions strptime_ms sp now = [].
Proof.
  intros Htop Hi Hidx Hbad.
  destruct (suggestions_cases strptime_ms sp now top Htop)
    as [?|(recent & pc & _ & _ & Hout)]; [done|].
  assert (t ∈ kept ∅ top) as Hkept.
  { eapply first_is_kept; [done..|]. apply not_elem_of_empty. }
  destruct (collect_raises pc top ∅ [] t Hkept Hbad) as [e He]. congruence.
Qed.

End SuggestionRuns.

(** ** get_spotify_suggestions: the stable deduplication *)

(** The ids the loop keeps are the stable deduplication of the ids of the
    top tracks, less the ids seen before. *)
Lemma kept_stable_dedup (top : list raw_track) (seen : gset string) :
  id <$> kept seen top = filter (fun x => x ∉ seen) (stable_dedup (id <$> top)).
Proof.
  revert seen. induction top as [|t rest IH]; intros seen; [done|].
  rewrite fmap_cons. simpl. rewrite filter_cons.
  rewrite list_filter_filter.
  destruct (decide (id t ∈ seen)) as [Hseen|Hnew].
  - rewrite (decide_False (P := id t ∉ seen)) by tauto.
    rewrite IH. apply list_filter_iff. intros x. split; [|tauto].
    intros Hx. split; [done|]. intros ->. done.
  - rewrite (decide_True (P := id t ∉ seen)) by done.
    rewrite fmap_cons, IH. f_equal. apply list_filter_iff. intros x.
    rewrite not_elem_of_union, not_elem_of_singleton. tauto.
Qed.

Lemma kept_all_stable_dedup (top : list raw_track) :
  id <$> kept ∅ top = stable_dedup (id <$> top).
Proof.
  rewrite kept_stable_dedup.
  induction (stable_dedup (id <$> top)) as [|x l IH]; [done|].
  rewrite filter_cons, decide_True by apply not_elem_of_empty.
  by rewrite IH.
Qed.

(** What a loop that went through has appended: one entry for the first
    track of each id, in the order of the top tracks. *)
Lemma collect_first_occurrences (pc : gmap string Z) (top : list raw_track)
    (out : list song) :
  collect pc top ∅ [] = Ok out ->
  song_id <$> out = stable_dedup (id <$> top) /\
  forall (k : nat) (e : song),
    out !! k = Some e ->
    exists (i : nat) (t : raw_track),
      top !! i = Some t /\ index_of (id t) (id <$> top) = Some i /\
      song_id e = id t /\ suggestion_entry pc t = Ok e.
Proof.
  intros Hout. apply collect_kept in Hout as (new & -> & Hnew). simpl. split.
  - rewrite <- kept_all_stable_dedup. clear -Hnew.
    induction Hnew as [|t e ts es He _ IH]; [done|].
    apply suggestion_entry_fields in He as [He _].
    by rewrite !fmap_cons, IH, He.
  - intros k e Hk.
    destruct (Forall2_lookup_r _ _ _ _ _ Hnew Hk) as (t & Ht & He).
    apply list_elem_of_lookup_2, kept_is_first in Ht as (_ & i & Hi & Hidx).
    exists i, t. split; [done|]. split; [done|]. split; [|done].
    by apply suggestion_entry_fields in He as [He _].
Qed.

Section SuggestionOrder.

Variable strptime_ms : string -> result Z.

(** When nothing fails, the run returns what the loop appended. *)
Lemma suggestions_run (sp : spotify) (now : Z) (top : list raw_track)
    (recent : list played_item) :
  current_user_top_tracks sp = Ok top ->
  current_user_recently_played sp = Ok recent ->
  Forall (fun item => exists ms, strptime_ms (played_at item) = Ok ms) recent ->
  (forall (i : nat) (t : raw_track),
     top !! i = Some t -> index_of (id t) (id <$> top) = Some i ->
     normalizable t = true) ->
  exists pc : gmap string Z,
    collect pc top ∅ [] = Ok (get_spotify_suggestions strptime_ms sp now).
Proof.
  intros Htop Hrecent Hparse Hfirst.
  destruct (count_plays_total strptime_ms (now - year_ms) recent ∅ Hparse)
    as [pc Hpc].
  destruct (collect_total pc top ∅ []) as [found Hfound].
  { apply Forall_forall. intros t Ht.
    apply kept_is_first in Ht as (_ & i & Hi & Hidx). eauto. }
  exists pc. rewrite Hfound. f_equal.
  unfold get_spotify_suggestions, run, get_spotify_suggestions_io, try_except.
  unfold mbind, io_bind, print, lift, mret, io_ret.
  by rewrite Htop, Hrecent, Hpc, Hfound.
Qed.

(** C3. The suggestions hold no id twice, and they come in the order in
    which their ids first occur among the top tracks.  A run that did not
    end in the [except] branch returns the stable deduplication of the top
    tracks by id: one record for each id, built from the first top track
    with that id.  No run ends in that branch when both fetches answer,
    every timestamp parses and the first track of each id can be
    normalized. *)
Theorem suggestions_dedup_in_order (sp : spotify) (now : Z) (top : list raw_track) :
  current_user_top_tracks sp = Ok top ->
  let out := get_spotify_suggestions strptime_ms sp now in
  let ids := song_id <$> out in
  NoDup ids /\
  (forall (i j : nat) (a b : string),
     i < j -> ids !! i = Some a -> ids !! j = Some b ->
     exists p q : nat,
       index_of a (id <$> top) = Some p /\
       index_of b (id <$> top) = Some q /\ p < q) /\
  (out = [] \/ ids = stable_dedup (id <$> top)) /\
  (forall (k : nat) (e : song),
     out !! k = Some e ->
     exists (i : nat) (t : raw_track) (pc : gmap string Z),
       top !! i = Some t /\ index_of (id t) (id <$> top) = Some i /\
       song_id e = id t /\ suggestion_entry pc t = Ok e) /\
  (forall recent : list played_item,
     current_user_recently_played sp = Ok recent ->
     Forall (fun item => exists ms, strptime_ms (played_at item) = Ok ms) recent ->
     (forall (i : nat) (t : raw_track),
        top !! i = Some t -> index_of (id t) (id <$> top) = Some i ->
        normalizable t = true) ->
     ids = stable_dedup (id <$> top)).
Proof.
  intros Htop out ids.
  assert (forall recent : list played_item,
            current_user_recently_played sp = Ok recent ->
            Forall (fun item => exists ms, strptime_ms (played_at item) = Ok ms)
              recent ->
            (forall (i : nat) (t : raw_track),
               top !! i = Some t -> index_of (id t) (id <$> top) = Some i ->
               normalizable t = true) ->
            ids = stable_dedup (id <$> top)) as Hgood.
  { intros recent Hrecent Hparse Hfirst.
    destruct (suggestions_run sp now top recent Htop Hrecent Hparse Hfirst)
      as [pc Hpc].
    by apply collect_first_occurrences in Hpc as [Hids _]. }
  destruct (suggestions_cases strptime_ms sp now top Htop)
    as [Hnil|(recent & pc & _ & _ & Hout)].
  - subst ids out. rewrite Hnil in *. simpl.
    split; [constructor|]. split; [intros i j a b _ Hi; discriminate|].
    split; [by left|]. split; [intros k e Hk; discriminate | exact Hgood].
  - apply collect_first_occurrences in Hout as [Hids Hrec].
    fold out in Hids, Hrec. fold ids in Hids.
    split; [|split; [|split; [|split]]].
    + rewrite Hids, <- kept_all_stable_dedup. apply kept_NoDup.
    + rewrite Hids, <- kept_all_stable_dedup. intros i j a b. apply kept_order.
    + by right.
    + intros k e Hk. destruct (Hrec k e Hk) as (i & t & ?). exists i, t, pc. done.
    + exact Hgood.
Qed.

End SuggestionOrder.

(** ** The handlers of main, one at a time *)

Lemma deref_insert_eq (h : list song) (l : nat) (x : song) :
  l < length h -> deref (<[l := x]> h) l = x.
Proof. intros Hl. unfold deref. by rewrite list_lookup_insert_eq. Qed.

Lemma deref_insert_ne (h : list song) (l l' : nat) (x : song) :
  l' <> l -> deref (<[l := x]> h) l' = deref h l'.
Proof. intros Hne. unfold deref. by rewrite list_lookup_insert_ne. Qed.

Lemma songs_at_insert_notin (h : list song) (l : nat) (x : song) (ls : list nat) :
  l ∉ ls -> songs_at (<[l := x]> h) ls = songs_at h ls.
Proof.
  intros Hl. unfold songs_at. apply Forall_fmap_ext_1, Forall_forall.
  intros l' Hl'. apply deref_insert_ne. intros ->. done.
Qed.

Lemma songs_at_elem (h : list song) (ls : list nat) (l : nat) :
  l ∈ ls -> deref h l ∈ songs_at h ls.
Proof. intros Hl. unfold songs_at. by apply list_elem_of_fmap_2. Qed.

Lemma deref_has_rank_valid (h : list song) (l : nat) (v : value) :
  deref h l !! "rank" = Some v -> l < length h.
Proof.
  unfold deref. intros Hv. apply lookup_lt_is_Some.
  destruct (h !! l); [eauto|]. simpl in Hv. by rewrite lookup_empty in Hv.
Qed.

Lemma rank_key_has_rank (e : song) (k : Z) : has_rank e k <-> rank_key e = Ok k.
Proof.
  unfold has_rank, rank_key, get_item. split.
  - by intros ->.
  - destruct (e !! "rank") as [[]|]; simpl; congruence.
Qed.

Lemma list_remove_perm (h : list song) (x : song) (ls rest : list nat) :
  list_remove h x ls = Ok rest ->
  rest `sublist_of` ls /\
  exists l0, deref h l0 = x /\ ls ≡ₚ l0 :: rest.
Proof.
  revert rest. induction ls as [|l ls IH]; intros rest H; simpl in H.
  - discriminate.
  - destruct (decide (deref h l = x)) as [Hx|Hx].
    + injection H as <-. split; [by apply sublist_cons|]. by exists l.
    + apply bind_Ok in H as (r & Hr & H). injection H as <-.
      destruct (IH _ Hr) as (Hsub & l0 & Hl0 & Hperm).
      split; [by apply sublist_skip|]. exists l0. split; [done|].
      by rewrite Hperm, Permutation_swap.
Qed.

Lemma sorted_by_keys {A} (key : A -> result Z) (l l' : list A) :
  sorted_by key l = Ok l' -> Forall (fun x => exists k, key x = Ok k) l.
Proof.
  unfold sorted_by. intros H. apply bind_Ok in H as (d & Hd & _).
  apply decorated_spec in Hd as [<- Hkeys].
  rewrite Forall_fmap. eapply Forall_impl; [exact Hkeys|].
  intros p Hp. simpl in *. eauto.
Qed.

Lemma list_remove_first (h : list song) (x : song) (ls rest : list nat) :
  list_remove h x ls = Ok rest ->
  exists (before after : list nat) (l0 : nat),
    ls = (before ++ l0 :: after)%list /\ rest = (before ++ after)%list /\
    deref h l0 = x /\ x ∉ songs_at h before.
Proof.
  revert rest. induction ls as [|l ls IH]; intros rest H; simpl in H.
  - discriminate.
  - destruct (decide (deref h l = x)) as [Hx|Hx].
    + injection H as <-. exists [], ls, l. repeat split; [done|].
      intros Hin. inversion Hin.
    + apply bind_Ok in H as (r & Hr & H). injection H as <-.
      destruct (IH _ Hr) as (before & after & l0 & -> & -> & Hl0 & Hnot).
      exists (l :: before), after, l0. repeat split; [done|].
      unfold songs_at. rewrite fmap_cons. intros Hin.
      apply elem_of_cons in Hin as [Heq|Hin]; [congruence | done].
Qed.

(** X10. The Remove button of a row never raises.  It takes out of the
    ranking the first entry equal to that row's, which is another row when
    an equal entry stands before it; the other rows keep their order, the
    objects and the suggestions are not touched, and the file is rewritten
    with the new ranking. *)
Theorem remove_row_removes_one (idx : nat) (s : session) (l : nat) :
  ranked_songs s !! idx = Some l ->
  exists (s' : session) (before after : list song),
    remove_row idx s = Ok s' /\
    ranking s = (before ++ deref (heap s) l :: after)%list /\
    ranking s' = (before ++ after)%list /\
    (deref (heap s) l ∉ before) /\
    heap s' = heap s /\
    suggestions s' = suggestions s /\
    rankings_json s' = Some (ranking s').
Proof.
  intros Hl. unfold remove_row. rewrite Hl.
  destruct (list_remove_total (heap s) (ranked_songs s) l) as (rest & Hrest & _).
  { by eapply list_elem_of_lookup_2. }
  rewrite Hrest. simpl.
  apply list_remove_first in Hrest
    as (before & after & l0 & Hls & -> & Hl0 & Hnot).
  eexists _, (songs_at (heap s) before), (songs_at (heap s) after).
  split; [done|]. unfold ranking. simpl. rewrite Hls. unfold songs_at.
  rewrite !fmap_app, fmap_cons, Hl0. by repeat split.
Qed.

(** X11. A rank input that returns the rank the row already has changes
    nothing and writes nothing.  Any other value, in a ranking whose
    entries all have integer ranks, never raises: the row's object gets
    the new rank and keeps its other keys, no other object changes, the
    ranking holds the same objects ascending by rank, and the file is
    rewritten with it. *)
Theorem edit_rank_changes_one (idx : nat) (new_rank : Z) (s : session)
    (l : nat) (old : value) :
  ranked_songs s !! idx = Some l ->
  deref (heap s) l !! "rank" = Some old ->
  Forall (fun e : song => exists k, has_rank e k) (ranking s) ->
  (VInt new_rank = old -> edit_rank idx new_rank s = Ok s) /\
  (VInt new_rank <> old ->
   exists s' : session,
     edit_rank idx new_rank s = Ok s' /\
     has_rank (deref (heap s') l) new_rank /\
     (forall k : string, k <> "rank" ->
        deref (heap s') l !! k = deref (heap s) l !! k) /\
     (forall l' : nat, l' <> l -> deref (heap s') l' = deref (heap s) l') /\
     ranked_songs s' ≡ₚ ranked_songs s /\
     sorted_by_rank (ranking s') /\
     suggestions s' = suggestions s /\
     rankings_json s' = Some (ranking s')).
Proof.
  intros Hl Hold Hranks. unfold edit_rank. rewrite Hl.
  assert (get_item "rank" (deref (heap s) l) = Ok old) as ->.
  { unfold get_item. by rewrite Hold. }
  simpl. split.
  - intros Heq. by rewrite decide_True.
  - intros Hne. rewrite decide_False by done.
    pose proof (deref_has_rank_valid _ _ _ Hold) as Hvalid.
    set (h' := <[l := <["rank" := VInt new_rank]> (deref (heap s) l)]> (heap s)).
    destruct (sorted_by_total (fun l' => rank_key (deref h' l')) (ranked_songs s))
      as [sorted Hsorted].
    { unfold ranking, songs_at in Hranks. rewrite Forall_fmap in Hranks.
      eapply Forall_impl; [exact Hranks|]. intros l' [k Hk]. simpl in Hk.
      destruct (decide (l' = l)) as [->|Hl'].
      - exists new_rank. subst h'. rewrite deref_insert_eq by done.
        apply rank_key_has_rank. unfold has_rank. by rewrite lookup_insert_eq.
      - exists k. subst h'. rewrite deref_insert_ne by done.
        by apply rank_key_has_rank. }
    rewrite Hsorted. simpl. eexists. split; [done|]. simpl.
    apply sorted_by_rank_key in Hsorted as [Hperm Hs].
    fold h'. repeat split; try done.
    + subst h'. rewrite deref_insert_eq by done. unfold has_rank.
      by rewrite lookup_insert_eq.
    + intros k Hk. subst h'. rewrite deref_insert_eq by done.
      by rewrite lookup_insert_ne.
    + intros l' Hl'. subst h'. by apply deref_insert_ne.
Qed.

(** ** Where an added song lands *)

Lemma for_each_app {A B} (f : A -> result B) (l1 l2 : list A) (y1 y2 : list B) :
  for_each f l1 = Ok y1 -> for_each f l2 = Ok y2 ->
  for_each f (l1 ++ l2) = Ok (y1 ++ y2)%list.
Proof.
  revert y1. induction l1 as [|x l1 IH]; intros y1 H1 H2; simpl in *.
  - by injection H1 as <-.
  - apply bind_Ok in H1 as (y & Hy & H1). apply bind_Ok in H1 as (ys & Hys & H1).
    injection H1 as <-. rewrite Hy. simpl. by rewrite (IH ys Hys H2).
Qed.

Lemma insert_by_key_front {A} (x : Z * A) (d : list (Z * A)) :
  Forall (key_le x) d -> insert_by_key x d = x :: d.
Proof.
  destruct d as [|y d]; [done|]. intros H. apply Forall_cons in H as [Hy _].
  simpl. unfold key_le in Hy. by rewrite (proj2 (Z.leb_le _ _) Hy).
Qed.

(** Sorting a sorted list with one more item at its end puts the item
    behind the items whose key is not greater, and moves nothing else. *)
Lemma sort_by_key_snoc {A} (d : list (Z * A)) (n : Z * A) :
  StronglySorted key_le d ->
  exists d1 d2 : list (Z * A),
    d = (d1 ++ d2)%list /\
    sort_by_key (d ++ [n])%list = (d1 ++ n :: d2)%list /\
    Forall (fun p => (p.1 <= n.1)%Z) d1 /\
    Forall (fun p => (n.1 < p.1)%Z) d2.
Proof.
  induction d as [|x d IH]; intros Hd.
  - exists [], []. by repeat split.
  - apply StronglySorted_inv in Hd as [Hd Hx].
    destruct (IH Hd) as (d1 & d2 & -> & Hsort & H1 & H2).
    simpl. rewrite Hsort. destruct (decide (x.1 <= n.1)%Z) as [Hle|Hgt].
    + exists (x :: d1), d2. split; [done|]. split.
      * apply insert_by_key_front. apply Forall_app in Hx as [Hx1 Hx2].
        apply Forall_app. split; [done|]. by constructor.
      * split; [by constructor | done].
    + destruct d1 as [|p d1].
      * exists [], (x :: d2). split; [done|]. split.
        -- simpl. rewrite (proj2 (Z.leb_gt _ _)) by lia.
           by rewrite insert_by_key_front.
        -- split; [constructor|]. constructor; [lia | done].
      * exfalso. apply Forall_cons in H1 as [Hp _].
        apply Forall_cons in Hx as [Hxp _]. unfold key_le in Hxp. lia.
Qed.

Lemma decorated_sorted (h : list song) (d : list (Z * nat)) :
  Forall (fun p => has_rank (deref h p.2) p.1) d ->
  sorted_by_rank (songs_at h (d.*2)) ->
  StronglySorted key_le d.
Proof.
  unfold sorted_by_rank, songs_at.
  induction d as [|p d IH]; intros Hranks Hs; [constructor|].
  apply Forall_cons in Hranks as [Hp Hranks].
  rewrite !fmap_cons in Hs. apply StronglySorted_inv in Hs as [Hs Hps].
  constructor; [by apply IH|].
  rewrite !Forall_fmap in Hps. rewrite Forall_forall in Hps, Hranks |- *.
  intros q Hq. destruct (Hps q Hq) as (ra & rb & Ha & Hb & Hle). simpl in *.
  specialize (Hranks q Hq). unfold has_rank in *. unfold key_le.
  assert (ra = p.1) as -> by congruence. assert (rb = q.1) as -> by congruence.
  done.
Qed.

(** X12. Adding a song that equals no ranked entry, in a sorted ranking
    with integer ranks, never raises.  The new entry is the song with its
    rank set; it is put behind the entries whose rank is at most its own
    and before those with a greater rank, the entries there before are
    neither changed nor reordered, and the file is rewritten. *)
Theorem add_song_places_by_rank (l : nat) (rank : Z) (s : session) :
  l < length (heap s) ->
  deref (heap s) l ∉ ranking s ->
  Forall (fun e : song => exists k, has_rank e k) (ranking s) ->
  sorted_by_rank (ranking s) ->
  exists (s' : session) (before after : list song),
    add_song l rank s = Ok s' /\
    ranking s = (before ++ after)%list /\
    ranking s' = (before ++ <["rank" := VInt rank]> (deref (heap s) l) :: after)%list /\
    Forall (fun e : song => exists k, has_rank e k /\ (k <= rank)%Z) before /\
    Forall (fun e : song => exists k, has_rank e k /\ (rank < k)%Z) after /\
    suggestions s' = suggestions s /\
    rankings_json s' = Some (ranking s').
Proof.
  intros Hvalid Hnew Hranks Hsorted.
  set (new := <["rank" := VInt rank]> (deref (heap s) l)).
  set (h' := <[l := new]> (heap s)).
  assert (l ∉ ranked_songs s) as Hnotin.
  { intros Hin. by apply Hnew, songs_at_elem. }
  assert (forall l', l' ∈ ranked_songs s -> deref h' l' = deref (heap s) l') as Hframe.
  { intros l' Hl'. apply deref_insert_ne. by intros ->. }
  destruct (for_each_total
              (fun x => k ← rank_key (deref h' x); Ok (k, x)) (ranked_songs s))
    as [d Hd].
  { unfold ranking, songs_at in Hranks. rewrite Forall_fmap in Hranks.
    rewrite Forall_forall in Hranks |- *. intros l' Hl'.
    destruct (Hranks l' Hl') as [k Hk]. simpl in Hk.
    rewrite (Hframe l' Hl'). apply rank_key_has_rank in Hk. rewrite Hk.
    simpl. eauto. }
  destruct (decorated_spec _ _ _ Hd) as [Hd2 Hkeys].
  assert (Forall (fun p => has_rank (deref (heap s) p.2) p.1) d) as Hdr.
  { rewrite Forall_forall in Hkeys |- *. intros p Hp.
    rewrite <- Hframe; [by apply rank_key_has_rank, Hkeys|].
    rewrite <- Hd2. by apply list_elem_of_fmap_2. }
  assert (StronglySorted key_le d) as Hds.
  { apply (decorated_sorted (heap s)); [done|]. by rewrite Hd2. }
  destruct (sort_by_key_snoc d (rank, l) Hds) as (d1 & d2 & -> & Hsort & H1 & H2).
  assert (rank_key (deref h' l) = Ok rank) as Hkl.
  { subst h' new. rewrite deref_insert_eq by done.
    apply rank_key_has_rank. unfold has_rank. by rewrite lookup_insert_eq. }
  assert (sorted_by (fun l' => rank_key (deref h' l')) (ranked_songs s ++ [l])%list =
            Ok ((d1 ++ (rank, l) :: d2)%list.*2)) as Hsorted_by.
  { unfold sorted_by.
    rewrite (for_each_app _ _ _ _ [(rank, l)] Hd);
      [unfold mbind, result_bind; by rewrite Hsort|].
    simpl. by rewrite Hkl. }
  rewrite fmap_app in Hd2. apply Forall_app in Hdr as [Hdr1 Hdr2].
  assert ((l ∉ d1.*2) /\ (l ∉ d2.*2)) as [Hn1 Hn2].
  { rewrite <- Hd2 in Hnotin. split; intros Hin; apply Hnotin, elem_of_app; auto. }
  exists {| heap := h'; ranked_songs := (d1 ++ (rank, l) :: d2)%list.*2;
            suggestions := suggestions s;
            rankings_json := save_rankings (songs_at h' ((d1 ++ (rank, l) :: d2)%list.*2));
            stdout := stdout s |},
         (songs_at (heap s) (d1.*2)), (songs_at (heap s) (d2.*2)).
  split.
  { unfold add_song. rewrite decide_False by done. fold new h'.
    by rewrite Hsorted_by. }
  split.
  { unfold ranking. rewrite <- Hd2. unfold songs_at. by rewrite fmap_app. }
  split.
  { unfold ranking. simpl. rewrite fmap_app, fmap_cons. simpl.
    unfold songs_at at 1. rewrite fmap_app, fmap_cons.
    fold (songs_at h' (d1.*2)). fold (songs_at h' (d2.*2)).
    subst h'. rewrite !songs_at_insert_notin by done.
    by rewrite deref_insert_eq. }
  split.
  { unfold songs_at. rewrite !Forall_fmap.
    rewrite Forall_forall in H1, Hdr1 |- *. intros p Hp. exists p.1.
    split; [by apply Hdr1 | by apply H1]. }
  split; [|done].
  unfold songs_at. rewrite !Forall_fmap.
  rewrite Forall_forall in H2, Hdr2 |- *. intros p Hp. exists p.1.
  split; [by apply Hdr2 | by apply (H2 p Hp)].
Qed.

Lemma add_suggestion_of_ranked (idx : nat) (rank : Z) (s : session) (l : nat) :
  suggestions s !! idx = Some l -> l ∈ ranked_songs s ->
  add_suggestion idx rank s = Ok s.
Proof.
  intros Hl Hin. unfold add_suggestion. rewrite Hl.
  by apply add_song_present, songs_at_elem.
Qed.

Lemma edit_rank_keeps_objects (idx : nat) (new_rank : Z) (s s' : session) :
  edit_rank idx new_rank s = Ok s' ->
  ranked_songs s' ≡ₚ ranked_songs s /\ suggestions s' = suggestions s.
Proof.
  unfold edit_rank. intros H.
  destruct (ranked_songs s !! idx) as [l|]; [|by injection H as <-].
  apply bind_Ok in H as (old & _ & H).
  destruct (decide (VInt new_rank = old)); [by injection H as <-|].
  apply bind_Ok in H as (sorted & Hs & H). injection H as <-. simpl.
  by apply sorted_by_spec in Hs as [Hperm _].
Qed.

(** X13. The object of a suggestion that was added is the object in the
    ranking: pressing its Add button again changes nothing, whatever rank
    is entered, and this stays so after the entry's rank, or any other, was
    edited in the ranking. *)
Theorem add_suggestion_blocks_repeat (idx : nat) (rank : Z) (s s1 : session)
    (l : nat) :
  suggestions s !! idx = Some l ->
  deref (heap s) l ∉ ranking s ->
  add_suggestion idx rank s = Ok s1 ->
  l ∈ ranked_songs s1 /\
  (forall rank' : Z, add_suggestion idx rank' s1 = Ok s1) /\
  (forall (idx' : nat) (new_rank rank' : Z) (s2 : session),
     edit_rank idx' new_rank s1 = Ok s2 ->
     add_suggestion idx rank' s2 = Ok s2).
Proof.
  intros Hl Hnew H. unfold add_suggestion in H. rewrite Hl in H.
  destruct (add_song_absent l rank s s1 Hnew H) as (Hperm & _).
  assert (suggestions s1 = suggestions s) as Hsug.
  { unfold add_song in H. rewrite decide_False in H by done.
    apply bind_Ok in H as (sorted & _ & H). by injection H as <-. }
  assert (l ∈ ranked_songs s1) as Hin.
  { rewrite Hperm. apply elem_of_app. right. left. }
  split; [done|]. split.
  - intros rank'. apply (add_suggestion_of_ranked idx rank' s1 l); [|done].
    by rewrite Hsug.
  - intros idx' new_rank rank' s2 Hedit.
    apply edit_rank_keeps_objects in Hedit as [Hperm2 Hsug2].
    apply (add_suggestion_of_ranked idx rank' s2 l).
    + by rewrite Hsug2, Hsug.
    + by rewrite Hperm2.
Qed.

Lemma add_song_ranking_perm (l : nat) (rank : Z) (s s' : session) :
  l < length (heap s) ->
  deref (heap s) l ∉ ranking s ->
  add_song l rank s = Ok s' ->
  ranking s' ≡ₚ <["rank" := VInt rank]> (deref (heap s) l) :: ranking s.
Proof.
  intros Hvalid Hnew H.
  assert (l ∉ ranked_songs s) as Hnotin.
  { intros Hin. by apply Hnew, songs_at_elem. }
  unfold add_song in H. rewrite decide_False in H by done.
  apply bind_Ok in H as (sorted & Hs & H). injection H as <-.
  apply sorted_by_spec in Hs as [Hperm _].
  unfold ranking. simpl. unfold songs_at at 1. rewrite Hperm.
  rewrite fmap_app. simpl. rewrite deref_insert_eq by done.
  fold (songs_at (<[l:=<["rank":=VInt rank]> (deref (heap s) l)]> (heap s))
          (ranked_songs s)).
  rewrite songs_at_insert_notin by done.
  by rewrite <- Permutation_cons_append.
Qed.

Lemma next_rank_free (ranked : list song) (r : Z) :
  get_next_available_rank ranked = Ok r ->
  (exists k : Z, (1 <= k <= 2000)%Z /\ ~ rank_taken ranked k) ->
  ~ rank_taken ranked r.
Proof.
  intros Hr (k & Hk & Hfree).
  destruct (decide (ranked = [])) as [->|Hne].
  { intros (e & He & _). inversion He. }
  rewrite (get_next_available_rank_nonempty _ Hne) in Hr.
  destruct (for_each (get_item "rank") ranked) as [ranks|e] eqn:Hranks;
    [|discriminate].
  assert (r = first_free (list_to_set ranks) (seqZ 1 2000)) as -> by congruence.
  pose proof (first_free_seqZ (list_to_set ranks) 2000 1) as H.
  cbn zeta in H. change (Z.of_nat 2000) with 2000%Z in H.
  destruct H as [(_ & Hnot & _)|(_ & Hall)].
  - intros Ht. apply Hnot. by eapply current_ranks_spec.
  - exfalso. apply Hfree. eapply current_ranks_spec; [done|]. apply Hall. lia.
Qed.

(** X14. The rank that the number input of an Add button shows first is
    the one [get_next_available_rank] returns.  Adding a song with that
    rank to a ranking whose ranks are pairwise different, while a rank in
    1..2000 is still free, gives a ranking whose ranks are pairwise
    different. *)
Theorem add_at_next_rank_keeps_ranks_distinct (l : nat) (r : Z)
    (s s' : session) :
  l < length (heap s) ->
  deref (heap s) l ∉ ranking s ->
  get_next_available_rank (ranking s) = Ok r ->
  (exists k : Z, (1 <= k <= 2000)%Z /\ ~ rank_taken (ranking s) k) ->
  NoDup (ranks_of (ranking s)) ->
  add_song l r s = Ok s' ->
  NoDup (ranks_of (ranking s')).
Proof.
  intros Hvalid Hnew Hr Hfree Hnodup Hadd.
  pose proof (next_rank_free _ _ Hr Hfree) as Hnot.
  unfold ranks_of. rewrite (add_song_ranking_perm l r s s' Hvalid Hnew Hadd).
  rewrite fmap_cons, lookup_insert_eq. apply NoDup_cons. split; [|done].
  intros Hin. apply list_elem_of_fmap in Hin as (e & He & Hin).
  apply Hnot. by exists e.
Qed.

Lemma songs_at_fresh (h found : list song) :
  songs_at (h ++ found) (seq (length h) (length found)) = found.
Proof.
  apply list_eq. intros i. unfold songs_at. rewrite list_lookup_fmap.
  destruct (found !! i) as [x|] eqn:Hx.
  - rewrite (proj2 (lookup_seq (length h) (length found) i (length h + i))).
    + simpl. unfold deref. rewrite lookup_app_r by lia.
      replace (length h + i - length h) with i by lia. by rewrite Hx.
    + split; [done | by eapply lookup_lt_Some].
  - apply lookup_ge_None in Hx.
    destruct (seq (length h) (length found) !! i) as [j|] eqn:Hj; [|done].
    apply lookup_seq in Hj. lia.
Qed.

Section LoadSuggestions.

Variable strptime_ms : string -> result Z.

(** X15. The Load Suggestions button never touches the ranking or the
    file.  When the run returns suggestions, these are the suggestions
    shown afterwards; when it returns none, also because it failed, the
    suggestions shown before stay. *)
Theorem load_suggestions_effect (sp : spotify) (now : Z) (s : session) :
  valid_locs (heap s) (ranked_songs s) ->
  let found := get_spotify_suggestions strptime_ms sp now in
  let s' := load_suggestions strptime_ms sp now s in
  ranking s' = ranking s /\
  rankings_json s' = rankings_json s /\
  (found = [] -> heap s' = heap s /\ suggestions s' = suggestions s) /\
  (found <> [] -> songs_at (heap s') (suggestions s') = found).
Proof.
  intros Hvalid found s'. subst found s'.
  unfold load_suggestions, get_spotify_suggestions.
  destruct (run _) as [r out].
  destruct (match r with Ok l => l | Raise _ => [] end) as [|x found] eqn:Hf.
  - split; [done|]. split; [done|]. split; [done|]. by intros ?.
  - split; [|split; [done|split]].
    + unfold ranking. cbn [heap ranked_songs]. by apply songs_at_app.
    + intros Hnil. rewrite Hnil in Hf. discriminate.
    + intros _. cbn [heap suggestions]. rewrite <- Hf. apply songs_at_fresh.
Qed.

End LoadSuggestions.

(** ** What a session keeps true *)

Lemma has_keys_insert (ks : list string) (e : song) (k : string) (v : value) :
  has_keys ks e -> has_keys ks (<[k := v]> e).
Proof.
  unfold has_keys. intros H. eapply Forall_impl; [exact H|].
  intros k' [w Hw]. simpl in Hw. destruct (decide (k = k')) as [->|Hne].
  - rewrite lookup_insert_eq. eauto.
  - rewrite lookup_insert_ne by done. eauto.
Qed.

Lemma ranked_entry_set_rank (e : song) (r : Z) :
  has_keys base_keys e -> ranked_entry (<["rank" := VInt r]> e).
Proof.
  intros H. split; [by apply has_keys_insert|].
  exists r. unfold has_rank. by rewrite lookup_insert_eq.
Qed.

Lemma search_entry_keys (t : raw_track) (e : song) :
  search_entry t = Ok e -> has_keys base_keys e.
Proof.
  unfold search_entry. intros H.
  apply bind_Ok in H as (a & _ & H). apply bind_Ok in H as (y & _ & H).
  injection H as <-. repeat constructor; eexists; reflexivity.
Qed.

Lemma suggestion_entry_keys (pc : gmap string Z) (t : raw_track) (e : song) :
  suggestion_entry pc t = Ok e -> has_keys base_keys e.
Proof.
  unfold suggestion_entry. intros H.
  apply bind_Ok in H as (y & _ & H). apply bind_Ok in H as (a & _ & H).
  injection H as <-. repeat constructor; eexists; reflexivity.
Qed.

Lemma search_spotify_keys (sp : spotify) (query : string) (hits : list song) :
  search_spotify sp query = Ok hits -> Forall (has_keys base_keys) hits.
Proof.
  unfold search_spotify. destruct (decide (query = "")).
  - intros [= <-]. constructor.
  - intros H. apply bind_Ok in H as (raw & _ & H). apply for_each_Ok in H.
    induction H as [|t e ts es He _ IH]; constructor; [|done].
    by eapply search_entry_keys.
Qed.

Lemma songs_at_insert_Forall (P : song -> Prop) (h : list song) (l : nat)
    (x : song) (ls : list nat) :
  Forall P (songs_at h ls) -> P x -> Forall P (songs_at (<[l := x]> h) ls).
Proof.
  unfold songs_at. rewrite !Forall_fmap. intros H Hx.
  eapply Forall_impl; [exact H|]. intros l' Hl'. simpl in *.
  destruct (decide (l' = l)) as [->|Hne]; [|by rewrite deref_insert_ne].
  destruct (decide (l < length h)); [by rewrite deref_insert_eq|].
  by rewrite list_insert_ge by lia.
Qed.

Lemma songs_at_lookup (h : list song) (ls : list nat) (i l : nat) :
  ls !! i = Some l -> deref h l ∈ songs_at h ls.
Proof. intros Hl. by eapply songs_at_elem, list_elem_of_lookup_2. Qed.

Lemma in_sync_saved (h : list song) (ls sug : list nat) (out : list string) :
  in_sync {| heap := h; ranked_songs := ls; suggestions := sug;
             rankings_json := save_rankings (songs_at h ls); stdout := out |}.
Proof. reflexivity. Qed.

(** After [song['rank'] = rank] on object [l], [sorted] and
    [save_rankings]. *)
Lemma resorted_wf (s : session) (l : nat) (x : song) (ls sorted : list nat) :
  valid_locs (heap s) ls ->
  valid_locs (heap s) (suggestions s) ->
  Forall ranked_entry (songs_at (<[l := x]> (heap s)) ls) ->
  Forall (has_keys base_keys) (songs_at (<[l := x]> (heap s)) (suggestions s)) ->
  sorted_by (fun l' => rank_key (deref (<[l := x]> (heap s)) l')) ls = Ok sorted ->
  session_wf {| heap := <[l := x]> (heap s);
                ranked_songs := sorted;
                suggestions := suggestions s;
                rankings_json := save_rankings (songs_at (<[l := x]> (heap s)) sorted);
                stdout := stdout s |}.
Proof.
  intros Hls Hsug Hentries Hkeys H. apply sorted_by_spec in H as [Hperm _].
  split; [|split; [|split; [|split]]]; simpl.
  - apply valid_locs_insert. unfold valid_locs. by rewrite Hperm.
  - by apply valid_locs_insert.
  - unfold ranking, songs_at. simpl. rewrite Hperm. exact Hentries.
  - exact Hkeys.
  - apply in_sync_saved.
Qed.

Lemma edit_rank_wf (idx : nat) (new_rank : Z) (s s' : session) :
  session_wf s -> edit_rank idx new_rank s = Ok s' -> session_wf s'.
Proof.
  intros (Hranked & Hsug & Hentries & Hkeys & Hsync) H. unfold edit_rank in H.
  destruct (ranked_songs s !! idx) as [l|] eqn:Hl; [|by injection H as <-].
  apply bind_Ok in H as (old & _ & H).
  destruct (decide (VInt new_rank = old)); [by injection H as <-|].
  apply bind_Ok in H as (sorted & Hs & H). injection H as <-.
  assert (has_keys base_keys (deref (heap s) l)) as Hl_keys.
  { rewrite Forall_forall in Hentries.
    by apply (Hentries _ (songs_at_lookup _ _ _ _ Hl)). }
  eapply resorted_wf; [exact Hranked | exact Hsug | | | exact Hs].
  - apply songs_at_insert_Forall; [done|]. by apply ranked_entry_set_rank.
  - apply songs_at_insert_Forall; [done|]. by apply has_keys_insert.
Qed.

Lemma remove_row_wf (idx : nat) (s s' : session) :
  session_wf s -> remove_row idx s = Ok s' -> session_wf s'.
Proof.
  intros (Hranked & Hsug & Hentries & Hkeys & Hsync) H. unfold remove_row in H.
  destruct (ranked_songs s !! idx) as [l|]; [|by injection H as <-].
  apply bind_Ok in H as (rest & Hrest & H). injection H as <-.
  apply list_remove_perm in Hrest as (_ & l0 & _ & Hperm).
  split; [|split; [|split; [|split]]]; simpl.
  - unfold valid_locs in *. rewrite Hperm in Hranked.
    by apply Forall_cons in Hranked as [_ ?].
  - done.
  - unfold ranking, songs_at in *. simpl. rewrite Hperm, fmap_cons in Hentries.
    by apply Forall_cons in Hentries as [_ ?].
  - done.
  - apply in_sync_saved.
Qed.

Lemma add_song_wf (l : nat) (rank : Z) (s s' : session) :
  session_wf s -> l < length (heap s) -> has_keys base_keys (deref (heap s) l) ->
  add_song l rank s = Ok s' -> session_wf s'.
Proof.
  intros (Hranked & Hsug & Hentries & Hkeys & Hsync) Hl Hl_keys H.
  unfold add_song in H.
  destruct (decide (_ ∈ _)); [by injection H as <-|].
  apply bind_Ok in H as (sorted & Hs & H). injection H as <-.
  eapply resorted_wf; [|exact Hsug| | |exact Hs].
  - apply Forall_app. split; [done | by repeat constructor].
  - unfold songs_at. rewrite fmap_app. apply Forall_app. split.
    + apply songs_at_insert_Forall; [done|]. by apply ranked_entry_set_rank.
    + simpl. rewrite deref_insert_eq by done.
      constructor; [by apply ranked_entry_set_rank | constructor].
  - apply songs_at_insert_Forall; [done|]. by apply has_keys_insert.
Qed.

(** Allocating objects changes nothing the session can see. *)
Lemma allocated_wf (s : session) (new : list song) :
  session_wf s ->
  session_wf {| heap := (heap s ++ new)%list; ranked_songs := ranked_songs s;
                suggestions := suggestions s; rankings_json := rankings_json s;
                stdout := stdout s |}.
Proof.
  intros (Hranked & Hsug & Hentries & Hkeys & Hsync).
  split; [|split; [|split; [|split]]]; simpl.
  - by apply valid_locs_app.
  - by apply valid_locs_app.
  - unfold ranking. simpl. by rewrite songs_at_app.
  - by rewrite songs_at_app.
  - unfold in_sync, ranking in *. simpl. by rewrite songs_at_app.
Qed.

Lemma add_search_result_wf (sp : spotify) (query : string) (idx : nat)
    (rank : Z) (s s' : session) :
  session_wf s -> add_search_result sp query idx rank s = Ok s' -> session_wf s'.
Proof.
  intros Hwf H. unfold add_search_result in H.
  apply bind_Ok in H as (hits & Hhits & H).
  destruct (hits !! idx) as [hit|] eqn:Hhit; [|by injection H as <-].
  eapply add_song_wf; [by apply allocated_wf| | |exact H]; simpl.
  - rewrite length_app. apply lookup_lt_Some in Hhit. lia.
  - unfold deref. rewrite lookup_app_r by lia.
    replace (length (heap s) + idx - length (heap s)) with idx by lia.
    rewrite Hhit. simpl. apply search_spotify_keys in Hhits.
    rewrite Forall_lookup in Hhits. by eapply Hhits.
Qed.

Lemma add_suggestion_wf (idx : nat) (rank : Z) (s s' : session) :
  session_wf s -> add_suggestion idx rank s = Ok s' -> session_wf s'.
Proof.
  intros Hwf H. unfold add_suggestion in H.
  destruct (suggestions s !! idx) as [l|] eqn:Hl; [|by injection H as <-].
  destruct Hwf as (Hranked & Hsug & Hentries & Hkeys & Hsync).
  eapply add_song_wf; [by repeat split| | |exact H].
  - unfold valid_locs in Hsug. rewrite Forall_lookup in Hsug. by eapply Hsug.
  - rewrite Forall_forall in Hkeys. by eapply Hkeys, songs_at_lookup.
Qed.

Lemma restart_ranking (s : session) :
  Forall ranked_entry (ranking s) -> in_sync s ->
  load_rankings None (rankings_json s) = ranking s.
Proof.
  unfold in_sync. intros Hentries Hsync.
  destruct (rankings_json s) as [file|]; simpl.
  - subst file. induction Hentries as [|e es He _ IH]; [done|].
    rewrite fmap_cons, IH. f_equal. apply backfill_present.
    destruct He as [Hkeys _]. unfold has_keys, base_keys in Hkeys.
    rewrite !Forall_cons in Hkeys. tauto.
  - unfold ranking. by rewrite Hsync.
Qed.

Lemma new_session_ranking (file : option (list song)) :
  ranking (new_session file) = load_rankings None file.
Proof. unfold new_session, ranking. simpl. apply songs_at_seq. Qed.

Lemma restart_wf (s : session) :
  session_wf s -> session_wf (new_session (rankings_json s)).
Proof.
  intros (Hranked & Hsug & Hentries & Hkeys & Hsync).
  pose proof (restart_ranking s Hentries Hsync) as Hload.
  split; [|split; [|split; [|split]]].
  - unfold new_session. simpl. apply Forall_seq. intros; lia.
  - constructor.
  - by rewrite new_session_ranking, Hload.
  - constructor.
  - unfold in_sync. rewrite new_session_ranking.
    change (rankings_json (new_session (rankings_json s))) with (rankings_json s).
    rewrite Hload. unfold in_sync in Hsync.
    destruct (rankings_json s) as [file|] eqn:Hfile; [done|].
    unfold new_session. simpl. done.
Qed.


Lemma display_song_ok (e : song) (rank : value) :
  is_Some (e !! "id") -> is_Some (e !! "full_name") -> is_Some (e !! "image_url") ->
  exists html, display_song e rank = Ok html.
Proof.
  intros [i Hi] [f Hf] [u Hu]. unfold display_song, get_item.
  rewrite Hi, Hf, Hu. unfold mbind, result_bind. eauto.
Qed.

Lemma has_base_keys (e : song) :
  has_keys base_keys e ->
  is_Some (e !! "id") /\ is_Some (e !! "full_name") /\
  is_Some (e !! "image_url") /\ is_Some (e !! "release_year").
Proof.
  unfold has_keys, base_keys. rewrite !Forall_cons. tauto.
Qed.

Lemma display_song_complete (e : song) (rank : value) :
  has_keys base_keys e -> exists html, display_song e rank = Ok html.
Proof.
  intros H. apply has_base_keys in H as (? & ? & ? & _).
  by apply display_song_ok.
Qed.

Lemma display_row_ranked (e : song) :
  ranked_entry e -> exists html, display_row e = Ok html.
Proof.
  intros [Hkeys [k Hk]]. unfold display_row, get_item. rewrite Hk.
  unfold mbind, result_bind. by apply display_song_complete.
Qed.

(** X16. [display_song] needs the keys id, full_name and image_url and
    nothing else: it returns the markup exactly when the song has all
    three, and raises KeyError for one of them otherwise.  A song without
    release_year is shown exactly as if its release year were "N/A". *)
Theorem display_song_keys (e : song) (rank : value) :
  ((exists html, display_song e rank = Ok html) <->
   is_Some (e !! "id") /\ is_Some (e !! "full_name") /\ is_Some (e !! "image_url")) /\
  (forall err : exn,
     display_song e rank = Raise err ->
     err = KeyError "id" \/ err = KeyError "full_name" \/ err = KeyError "image_url") /\
  (e !! "release_year" = None ->
   display_song e rank = display_song (<["release_year" := VStr "N/A"]> e) rank).
Proof.
  split; [split|split].
  - intros [html H]. unfold display_song, get_item in H.
    destruct (e !! "id"); [|discriminate].
    destruct (e !! "full_name"); [|discriminate].
    destruct (e !! "image_url"); [|discriminate]. eauto.
  - intros (? & ? & ?). by apply display_song_ok.
  - intros err. unfold display_song, get_item.
    destruct (e !! "id"); [|intros [= <-]; auto].
    destruct (e !! "full_name"); [|intros [= <-]; auto].
    destruct (e !! "image_url"); [|intros [= <-]; auto].
    discriminate.
  - intros Hnone. unfold display_song, get_item.
    rewrite (lookup_insert_ne _ "release_year" "id") by done.
    rewrite (lookup_insert_ne _ "release_year" "full_name") by done.
    rewrite (lookup_insert_ne _ "release_year" "image_url") by done.
    by rewrite lookup_insert_eq, Hnone.
Qed.

Section WellFormed.

Variable strptime_ms : string -> result Z.

Lemma suggestions_keys (sp : spotify) (now : Z) :
  Forall (has_keys base_keys) (get_spotify_suggestions strptime_ms sp now).
Proof.
  destruct (current_user_top_tracks sp) as [top|e] eqn:Htop.
  - destruct (suggestions_cases strptime_ms sp now top Htop)
      as [->|(recent & pc & _ & _ & Hout)]; [constructor|].
    apply collect_kept in Hout as (new & -> & Hnew). simpl.
    induction Hnew as [|t e ts es He _ IH]; constructor; [|done].
    by eapply suggestion_entry_keys.
  - unfold get_spotify_suggestions, run, get_spotify_suggestions_io, try_except.
    unfold mbind, io_bind, print, lift, mret, io_ret. rewrite Htop. constructor.
Qed.

Lemma load_suggestions_wf (sp : spotify) (now : Z) (s : session) :
  session_wf s -> session_wf (load_suggestions strptime_ms sp now s).
Proof.
  intros Hwf. pose proof (suggestions_keys sp now) as Hfound.
  unfold get_spotify_suggestions in Hfound. unfold load_suggestions.
  destruct (run _) as [r out].
  destruct (match r with Ok l => l | Raise _ => [] end) as [|x found].
  - destruct Hwf as (Hranked & Hsug & Hentries & Hkeys & Hsync).
    by repeat split.
  - destruct (allocated_wf s (x :: found) Hwf)
      as (Hranked & Hsug & Hentries & Hkeys & Hsync).
    split; [|split; [|split; [|split]]]; try done.
    + cbn [heap suggestions]. apply Forall_seq. intros j Hj.
      rewrite length_app. lia.
    + cbn [heap suggestions]. by rewrite songs_at_fresh.
Qed.

Lemma handle_wf (ev : event) (s s' : session) :
  session_wf s -> handle strptime_ms ev s = Ok s' -> session_wf s'.
Proof.
  intros Hwf H. destruct ev; simpl in H.
  - eapply edit_rank_wf; eassumption.
  - eapply remove_row_wf; eassumption.
  - eapply add_search_result_wf; eassumption.
  - injection H as <-. by apply load_suggestions_wf.
  - eapply add_suggestion_wf; eassumption.
  - injection H as <-. by apply restart_wf.
Qed.

Lemma start_wf : session_wf (new_session None).
Proof. repeat split; constructor. Qed.

Lemma reachable_wf (s : session) : reachable strptime_ms s -> session_wf s.
Proof.
  induction 1 as [|ev s s' _ IH Hstep]; [apply start_wf|].
  eapply handle_wf; eassumption.
Qed.

(** X17. In every session the program reaches from a start without a
    file, [rankings.json] holds exactly the ranking shown (and does not
    exist only while the ranking is empty), and a restart of the program
    shows the same ranking again. *)
Theorem restart_restores_ranking (s : session) :
  reachable strptime_ms s ->
  in_sync s /\ ranking (new_session (rankings_json s)) = ranking s.
Proof.
  intros H. apply reachable_wf in H as (_ & _ & Hentries & _ & Hsync).
  split; [done|]. rewrite new_session_ranking. by apply restart_ranking.
Qed.

(** X18. In every such session each ranked entry has the six keys of a
    search hit and an integer rank, and each suggestion has the six keys;
    so displaying a row of the ranking or a suggestion never raises.  The
    same holds for every hit [search_spotify] returns. *)
Theorem reachable_rows_display (s : session) :
  reachable strptime_ms s ->
  Forall (fun e : song => ranked_entry e /\ exists html, display_row e = Ok html)
         (ranking s) /\
  Forall (fun e : song =>
            has_keys base_keys e /\ exists html, display_song e VNone = Ok html)
         (songs_at (heap s) (suggestions s)) /\
  (forall (sp : spotify) (query : string) (hits : list song),
     search_spotify sp query = Ok hits ->
     Forall (fun e : song => exists html, display_song e VNone = Ok html) hits).
Proof.
  intros H. apply reachable_wf in H as (_ & _ & Hentries & Hkeys & _).
  split; [|split].
  - eapply Forall_impl; [exact Hentries|]. intros e He.
    split; [done | by apply display_row_ranked].
  - eapply Forall_impl; [exact Hkeys|]. intros e He.
    split; [done | by apply display_song_complete].
  - intros sp query hits Hhits. apply search_spotify_keys in Hhits.
    eapply Forall_impl; [exact Hhits|]. intros e He.
    by apply display_song_complete.
Qed.

End WellFormed.

(** ** What never raises *)

Lemma resort_total (h : list song) (l : nat) (r : Z) (ls : list nat) :
  l < length h ->
  Forall (fun l' => l' = l \/ exists k, has_rank (deref h l') k) ls ->
  exists sorted,
    sorted_by (fun l' => rank_key
                 (deref (<[l := <["rank" := VInt r]> (deref h l)]> h) l')) ls
    = Ok sorted.
Proof.
  intros Hl Hls. apply sorted_by_total.
  eapply Forall_impl; [exact Hls|]. intros l' Hl'. simpl in Hl'.
  destruct (decide (l' = l)) as [->|Hne].
  - exists r. rewrite deref_insert_eq by done.
    apply rank_key_has_rank. unfold has_rank. by rewrite lookup_insert_eq.
  - destruct Hl' as [?|[k Hk]]; [done|]. exists k.
    rewrite deref_insert_ne by done. by apply rank_key_has_rank.
Qed.

Lemma ranked_have_rank (s : session) :
  Forall ranked_entry (ranking s) ->
  Forall (fun l' => exists k, has_rank (deref (heap s) l') k) (ranked_songs s).
Proof.
  unfold ranking, songs_at. rewrite Forall_fmap. intros H.
  eapply Forall_impl; [exact H|]. by intros l' [_ ?].
Qed.

Lemma edit_rank_total (idx : nat) (new_rank : Z) (s : session) :
  session_wf s -> exists s', edit_rank idx new_rank s = Ok s'.
Proof.
  intros (Hranked & _ & Hentries & _). unfold edit_rank.
  destruct (ranked_songs s !! idx) as [l|] eqn:Hl; [|eauto].
  apply ranked_have_rank in Hentries.
  pose proof Hentries as Hall. rewrite Forall_lookup in Hall.
  destruct (Hall _ _ Hl) as [k Hk]. unfold get_item. rewrite Hk. simpl.
  destruct (decide (VInt new_rank = VInt k)); [eauto|].
  destruct (resort_total (heap s) l new_rank (ranked_songs s)) as [sorted ->].
  - unfold valid_locs in Hranked. rewrite Forall_lookup in Hranked. by eapply Hranked.
  - eapply Forall_impl; [exact Hentries|]. simpl. eauto.
  - simpl. eauto.
Qed.

Lemma remove_row_total (idx : nat) (s : session) :
  exists s', remove_row idx s = Ok s'.
Proof.
  unfold remove_row. destruct (ranked_songs s !! idx) as [l|] eqn:Hl; [|eauto].
  destruct (list_remove_total (heap s) (ranked_songs s) l) as (rest & -> & _).
  - by eapply list_elem_of_lookup_2.
  - simpl. eauto.
Qed.

Lemma add_song_total (l : nat) (rank : Z) (s : session) :
  l < length (heap s) -> Forall ranked_entry (ranking s) ->
  exists s', add_song l rank s = Ok s'.
Proof.
  intros Hl Hentries. unfold add_song.
  destruct (decide (_ ∈ _)); [eauto|].
  destruct (resort_total (heap s) l rank (ranked_songs s ++ [l])) as [sorted ->].
  - done.
  - apply Forall_app. split.
    + apply ranked_have_rank in Hentries.
      eapply Forall_impl; [exact Hentries|]. simpl. eauto.
    + repeat constructor.
  - simpl. eauto.
Qed.

Lemma add_suggestion_total (idx : nat) (rank : Z) (s : session) :
  session_wf s -> exists s', add_suggestion idx rank s = Ok s'.
Proof.
  intros (_ & Hsug & Hentries & _). unfold add_suggestion.
  destruct (suggestions s !! idx) as [l|] eqn:Hl; [|eauto].
  apply add_song_total; [|done].
  unfold valid_locs in Hsug. rewrite Forall_lookup in Hsug. by eapply Hsug.
Qed.

Lemma add_search_result_raise (sp : spotify) (query : string) (idx : nat)
    (rank : Z) (s : session) (e : exn) :
  session_wf s ->
  add_search_result sp query idx rank s = Raise e ->
  search_spotify sp query = Raise e.
Proof.
  intros Hwf H. unfold add_search_result in H.
  destruct (search_spotify sp query) as [hits|e'] eqn:Hhits; [|by injection H as <-].
  simpl in H. destruct (hits !! idx) as [hit|] eqn:Hhit; [|discriminate].
  destruct (allocated_wf s hits Hwf) as (_ & _ & Hentries & _).
  destruct (add_song_total (length (heap s) + idx) rank
              {| heap := (heap s ++ hits)%list; ranked_songs := ranked_songs s;
                 suggestions := suggestions s; rankings_json := rankings_json s;
                 stdout := stdout s |}) as [s' Hs']; [|done|congruence].
  simpl. rewrite length_app. apply lookup_lt_Some in Hhit. lia.
Qed.

Lemma add_song_bounded (l : nat) (rank : Z) (s s' : session) :
  l < length (heap s) -> (1 <= rank <= 2000)%Z ->
  Forall rank_in_bounds (ranking s) ->
  add_song l rank s = Ok s' -> Forall rank_in_bounds (ranking s').
Proof.
  intros Hl Hr Hb H.
  destruct (decide (deref (heap s) l ∈ ranking s)) as [Hin|Hnew].
  { rewrite add_song_present in H by done. by injection H as <-. }
  rewrite (add_song_ranking_perm l rank s s' Hl Hnew H).
  constructor; [|done]. exists rank. split; [|done].
  unfold has_rank. by rewrite lookup_insert_eq.
Qed.

Section NeverRaises.

Variable strptime_ms : string -> result Z.

(** X19. In a session reached from a start without a file, the code under
    a widget never raises of its own: the rank edit (lines 270-277), Remove
    (lines 280-282) and the Add of a suggestion (lines 348-357) always
    complete, whatever row and rank they are given, and the Add of a search
    hit (lines 309-318) completes whenever the search that listed the hit
    returned; it fails only with the exception [search_spotify] raised.
    This is about the code under the widget, not about the whole run: a
    run in which the search box holds a query calls [search_spotify] at
    line 290 before it reaches the widgets below it. *)
Theorem handlers_never_raise (s : session) :
  reachable strptime_ms s ->
  (forall (idx : nat) (new_rank : Z),
     exists s', edit_rank idx new_rank s = Ok s') /\
  (forall idx : nat, exists s', remove_row idx s = Ok s') /\
  (forall (idx : nat) (rank : Z),
     exists s', add_suggestion idx rank s = Ok s') /\
  (forall (sp : spotify) (query : string) (idx : nat) (rank : Z)
          (hits : list song),
     search_spotify sp query = Ok hits ->
     exists s', add_search_result sp query idx rank s = Ok s') /\
  (forall (sp : spotify) (query : string) (idx : nat) (rank : Z) (e : exn),
     add_search_result sp query idx rank s = Raise e ->
     search_spotify sp query = Raise e).
Proof.
  intros Hreach. apply reachable_wf in Hreach.
  split; [|split; [|split; [|split]]].
  - intros idx new_rank. by apply edit_rank_total.
  - intros idx. apply remove_row_total.
  - intros idx rank. by apply add_suggestion_total.
  - intros sp query idx rank hits Hhits.
    destruct (add_search_result sp query idx rank s) as [s'|e] eqn:H; [eauto|].
    apply add_search_result_raise in H; [congruence | done].
  - intros sp query idx rank e. by apply add_search_result_raise.
Qed.

Lemma handle_bounded (ev : event) (s s' : session) :
  session_wf s -> event_in_bounds ev ->
  Forall rank_in_bounds (ranking s) ->
  handle strptime_ms ev s = Ok s' -> Forall rank_in_bounds (ranking s').
Proof.
  intros Hwf Hev Hb H. destruct ev; simpl in H.
  - unfold edit_rank in H.
    destruct (ranked_songs s !! idx) as [l|]; [|by injection H as <-].
    apply bind_Ok in H as (old & _ & H).
    destruct (decide (VInt new_rank = old)); [by injection H as <-|].
    apply bind_Ok in H as (sorted & Hs & H). injection H as <-.
    apply sorted_by_spec in Hs as [Hperm _].
    unfold ranking, songs_at. simpl. rewrite Hperm.
    apply songs_at_insert_Forall; [done|]. exists new_rank.
    split; [unfold has_rank; by rewrite lookup_insert_eq | by apply Hev].
  - unfold remove_row in H.
    destruct (ranked_songs s !! idx) as [l|]; [|by injection H as <-].
    apply bind_Ok in H as (rest & Hrest & H). injection H as <-.
    apply list_remove_perm in Hrest as (_ & l0 & _ & Hperm).
    unfold ranking, songs_at in *. simpl. rewrite Hperm, fmap_cons in Hb.
    by apply Forall_cons in Hb as [_ ?].
  - unfold add_search_result in H. apply bind_Ok in H as (hits & _ & H).
    destruct (hits !! idx) as [hit|] eqn:Hhit; [|by injection H as <-].
    eapply add_song_bounded; [| |  |exact H]; simpl.
    + rewrite length_app. apply lookup_lt_Some in Hhit. lia.
    + by apply Hev.
    + destruct Hwf as (Hranked & _). unfold ranking. simpl.
      by rewrite songs_at_app.
  - injection H as <-. destruct Hwf as (Hranked & _).
    unfold load_suggestions. destruct (run _) as [r out].
    destruct (match r with Ok l => l | Raise _ => [] end) as [|x found]; [done|].
    unfold ranking. cbn [heap ranked_songs]. by rewrite songs_at_app.
  - unfold add_suggestion in H.
    destruct (suggestions s !! idx) as [l|] eqn:Hl; [|by injection H as <-].
    eapply add_song_bounded; [| | |exact H]; [|by apply Hev|done].
    destruct Hwf as (_ & Hsug & _). unfold valid_locs in Hsug.
    rewrite Forall_lookup in Hsug. by eapply Hsug.
  - injection H as <-. destruct Hwf as (_ & _ & Hentries & _ & Hsync).
    by rewrite new_session_ranking, restart_ranking.
Qed.

(** X20. When every rank a number input returns lies in 1..2000, as its
    bounds make it, every rank in the ranking is an integer in 1..2000,
    after any sequence of user actions from a start without a file. *)
Theorem ranks_stay_in_bounds (evs : list event) :
  Forall event_in_bounds evs ->
  Forall rank_in_bounds (ranking (replay strptime_ms evs (new_session None))).
Proof.
  assert (forall s, session_wf s -> Forall rank_in_bounds (ranking s) ->
            Forall event_in_bounds evs ->
            Forall rank_in_bounds (ranking (replay strptime_ms evs s))) as Hgen.
  { induction evs as [|ev evs IH]; intros s Hwf Hb Hevs; [done|].
    apply Forall_cons in Hevs as [Hev Hevs]. simpl.
    destruct (handle strptime_ms ev s) as [s'|e] eqn:Hstep; [|done].
    apply IH; [by eapply handle_wf | by eapply handle_bounded | done]. }
  intros Hevs. apply Hgen; [apply start_wf | constructor | done].
Qed.

End NeverRaises.

Section NextRank.

Variable strptime_ms : string -> result Z.

(** X21. In every session reached from a start without a file,
    [get_next_available_rank] returns a rank for the ranking, so the rank
    inputs of the Add buttons always have a first value, in 1..2000. *)
Theorem next_rank_always_returns (s : session) :
  reachable strptime_ms s ->
  exists r : Z,
    get_next_available_rank (ranking s) = Ok r /\ (1 <= r <= 2000)%Z.
Proof.
  intros H. apply reachable_wf in H as (_ & _ & Hentries & _).
  destruct (decide (ranking s = [])) as [->|Hne].
  { exists 1%Z. split; [reflexivity | lia]. }
  rewrite (get_next_available_rank_nonempty _ Hne).
  destruct (for_each_total (get_item "rank") (ranking s)) as [ranks ->].
  - eapply Forall_impl; [exact Hentries|]. intros e [_ [k Hk]].
    exists (VInt k). unfold get_item. by rewrite Hk.
  - eexists. split; [reflexivity | apply first_free_bounds].
Qed.

End NextRank.

(** X22. At the start of a session [load_rankings] runs before the client
    is stored in the session, so the lookup of a release year always fails:
    an entry saved without release year is shown with "N/A", whatever
    the catalog would answer, and the others are shown as saved. *)
Theorem startup_backfill_is_not_available (entries : list song) :
  ranking (new_session (Some entries)) =
    (fun e : song =>
       match e !! "release_year" with
       | Some _ => e
       | None => <["release_year" := VStr "N/A"]> e
       end) <$> entries.
Proof.
  rewrite new_session_ranking. simpl. apply list_fmap_ext.
  intros i e _. unfold backfill. by destruct (e !! "release_year").
Qed.

(** ** The further properties on the sample data *)

Ltac by_computation := vm_compute; reflexivity.

Lemma small_session_ranks :
  Forall (fun e : song => exists k, has_rank e k) (ranking small_session).
Proof.
  constructor; [exists 1%Z; by_computation|].
  constructor; [exists 3%Z; by_computation | constructor].
Qed.

Lemma small_session_sorted : sorted_by_rank (ranking small_session).
Proof.
  constructor; [constructor; [constructor | constructor]|].
  constructor; [|constructor].
  exists 1%Z, 3%Z. split; [by_computation|]. split; [by_computation | lia].
Qed.

Lemma not_in_by_id (e : song) (l : list song) :
  song_id e ∉ song_id <$> l -> e ∉ l.
Proof. intros H Hin. by apply H, list_elem_of_fmap_2. Qed.

Lemma song_c_not_ranked :
  deref (heap small_session) 2 ∉ ranking small_session.
Proof.
  apply not_in_by_id. apply (bool_decide_unpack _). by_computation.
Qed.

Lemma suggestions_dedup_witness :
  current_user_top_tracks sample_sp = Ok sample_top /\
  current_user_recently_played sample_sp = Ok sample_recent /\
  sample_top = [africa; never_gonna; africa] /\
  song_id <$> get_spotify_suggestions sample_strptime_ms sample_sp sample_now =
    [id africa; id never_gonna].
Proof.
  split; [reflexivity|]. split; [reflexivity|]. split; [reflexivity|].
  destruct (suggestions_dedup_in_order sample_strptime_ms sample_sp sample_now
              sample_top eq_refl) as (_ & _ & _ & _ & Hgood).
  rewrite (Hgood sample_recent eq_refl).
  - vm_compute. reflexivity.
  - repeat (apply List.Forall_cons; [eexists; vm_compute; reflexivity|]).
    apply List.Forall_nil.
  - intros [|[|[|i]]] t Ht Hidx; simpl in Ht;
      try (injection Ht as <-; reflexivity); discriminate.
Defined.

Lemma move_to_position_moves_witness :
  (0 <= 3 < Z.of_nat (length [1; 2; 3; 4; 5]))%Z /\
  exists songs' : list nat,
    move_to_position [1; 2; 3; 4; 5] 1 3 = Ok (songs', true) /\
    songs' !! 3 = Some 2 /\ songs' ≡ₚ [1; 2; 3; 4; 5].
Proof.
  assert (0 <= 3 < Z.of_nat (length [1; 2; 3; 4; 5]))%Z as Hnew by (simpl; lia).
  assert (- Z.of_nat (length [1; 2; 3; 4; 5]) <= 1
          < Z.of_nat (length [1; 2; 3; 4; 5]))%Z as Hold by (simpl; lia).
  split; [exact Hnew|].
  destruct (move_to_position_moves [1; 2; 3; 4; 5] 1 3 Hnew Hold)
    as (x & songs' & Hx & Hmove & Hx' & _ & _ & Hperm).
  exists songs'. split; [exact Hmove|]. split; [|exact Hperm].
  transitivity (Some x); [exact Hx' | exact (eq_sym Hx)].
Defined.

Lemma move_to_position_out_of_range_witness :
  move_to_position [1; 2; 3] 7 3 = Ok ([1; 2; 3], false) /\
  move_to_position [1; 2; 3] 7 0 = Raise IndexError /\
  move_to_position [1; 2; 3] (2 ^ 64) 0 = Raise OverflowError.
Proof.
  split; [|split].
  - apply (proj1 (move_to_position_out_of_range [1; 2; 3] 7 3)). simpl. lia.
  - apply (proj2 (proj2 (move_to_position_out_of_range [1; 2; 3] 7 0)));
      [simpl; lia | simpl; lia | unfold fits_ssize_t, ssize_t_max; lia].
  - apply (proj2 (proj2 (move_to_position_out_of_range [1; 2; 3] (2 ^ 64) 0)));
      [simpl; lia | simpl; lia | unfold fits_ssize_t, ssize_t_max; lia].
Defined.

Lemma move_to_position_back_witness :
  (0 <= 0 < Z.of_nat (length [1; 2; 3; 4; 5]))%Z /\
  exists songs' : list nat,
    move_to_position [1; 2; 3; 4; 5] 0 4 = Ok (songs', true) /\
    move_to_position songs' 4 0 = Ok ([1; 2; 3; 4; 5], true).
Proof.
  assert (0 <= 0 < Z.of_nat (length [1; 2; 3; 4; 5]))%Z as Hold by (simpl; lia).
  assert (0 <= 4 < Z.of_nat (length [1; 2; 3; 4; 5]))%Z as Hnew by (simpl; lia).
  split; [exact Hold|].
  exact (move_to_position_back [1; 2; 3; 4; 5] 0 4 Hold Hnew).
Defined.

Lemma next_available_rank_errors_witness :
  song_c ∈ [song_a; song_c] /\
  get_next_available_rank [song_a; song_c] = Raise (KeyError "rank").
Proof.
  assert (song_c ∈ [song_a; song_c]) as Hin by (right; left).
  split; [exact Hin|].
  apply (proj2 (proj2 (next_available_rank_errors [song_a; song_c])) song_c Hin).
  by_computation.
Defined.

Lemma search_spotify_results_witness :
  search sample_sp "never" = Ok [never_gonna; africa] /\
  exists results : list song,
    search_spotify sample_sp "never" = Ok results /\
    song_id <$> results = [id never_gonna; id africa].
Proof.
  split; [reflexivity|].
  destruct (search_spotify_results sample_sp "never" [never_gonna; africa])
    as (results & Hres & Hids & _).
  - discriminate.
  - reflexivity.
  - repeat constructor.
  - exists results. split; [exact Hres | exact Hids].
Defined.

Lemma search_spotify_raises_witness :
  undated ∈ [never_gonna; undated] /\
  normalizable undated = false /\
  exists e : exn, search_spotify no_fraction_sp "demo" = Raise e.
Proof.
  assert (undated ∈ [never_gonna; undated]) as Hin by (right; left).
  split; [exact Hin|]. split; [reflexivity|].
  assert ("demo" <> "") as Hq by discriminate.
  destruct (proj2 (search_spotify_raises no_fraction_sp "demo" Hq)
              [never_gonna; undated] undated eq_refl Hin eq_refl) as (e & He & _).
  exists e. exact He.
Defined.

Lemma suggestions_complete_witness :
  current_user_top_tracks sample_sp = Ok sample_top /\
  forall t : raw_track,
    t ∈ sample_top ->
    id t ∈ song_id <$> get_spotify_suggestions sample_strptime_ms sample_sp sample_now.
Proof.
  split; [reflexivity|].
  refine (proj1 (proj2 (suggestions_complete sample_strptime_ms sample_sp
                          sample_now sample_top sample_recent eq_refl eq_refl _ _))).
  - repeat constructor; eexists; by_computation.
  - intros i t Hi _. destruct i as [|[|[|i]]]; simpl in Hi;
      try discriminate; injection Hi as <-; reflexivity.
Defined.

Lemma unparsable_played_at_witness :
  sample_strptime_ms (played_at no_fraction_item) =
    Raise (ValueError "time data does not match format") /\
  get_spotify_suggestions sample_strptime_ms no_fraction_sp sample_now = [].
Proof.
  assert (sample_strptime_ms (played_at no_fraction_item) =
            Raise (ValueError "time data does not match format")) as Hfail
    by by_computation.
  split; [exact Hfail|].
  refine (proj1 (unparsable_played_at_empties_suggestions sample_strptime_ms
                   no_fraction_sp sample_now sample_top [no_fraction_item]
                   no_fraction_item _ eq_refl eq_refl _ Hfail)).
  left.
Defined.

Lemma malformed_top_track_witness :
  normalizable undated = false /\
  get_spotify_suggestions sample_strptime_ms undated_top_sp sample_now = [].
Proof.
  split; [reflexivity|].
  refine (malformed_top_track_empties_suggestions sample_strptime_ms
            undated_top_sp sample_now [africa; undated] 1 undated
            eq_refl eq_refl _ eq_refl).
  by_computation.
Defined.

Lemma remove_row_witness :
  ranked_songs small_session !! 0 = Some 0 /\
  exists (s' : session) (before after : list song),
    remove_row 0 small_session = Ok s' /\
    ranking small_session = (before ++ song_a :: after)%list /\
    ranking s' = (before ++ after)%list /\
    rankings_json s' = Some (ranking s').
Proof.
  split; [reflexivity|].
  destruct (remove_row_removes_one 0 small_session 0 eq_refl)
    as (s' & before & after & Hs' & Hold & Hnew & _ & _ & _ & Hfile).
  exists s', before, after.
  split; [exact Hs'|]. split; [exact Hold|]. split; [exact Hnew | exact Hfile].
Defined.

Lemma edit_rank_witness :
  deref (heap small_session) 0 !! "rank" = Some (VInt 1) /\
  exists s' : session,
    edit_rank 0 5 small_session = Ok s' /\
    has_rank (deref (heap s') 0) 5 /\
    sorted_by_rank (ranking s').
Proof.
  assert (deref (heap small_session) 0 !! "rank" = Some (VInt 1)) as Hold
    by by_computation.
  split; [exact Hold|].
  destruct (proj2 (edit_rank_changes_one 0 5 small_session 0 (VInt 1)
                     eq_refl Hold small_session_ranks))
    as (s' & Hs' & Hrank & _ & _ & _ & Hsorted & _).
  - discriminate.
  - exists s'. split; [exact Hs'|]. split; [exact Hrank | exact Hsorted].
Defined.

Lemma add_song_places_witness :
  2 < length (heap small_session) /\
  exists (s' : session) (before after : list song),
    add_song 2 2 small_session = Ok s' /\
    ranking small_session = (before ++ after)%list /\
    ranking s' = (before ++ <["rank" := VInt 2]> song_c :: after)%list.
Proof.
  assert (2 < length (heap small_session)) as Hl by (simpl; lia).
  split; [exact Hl|].
  destruct (add_song_places_by_rank 2 2 small_session Hl song_c_not_ranked
              small_session_ranks small_session_sorted)
    as (s' & before & after & Hs' & Hold & Hnew & _).
  exists s', before, after. split; [exact Hs'|]. split; [exact Hold | exact Hnew].
Defined.

Lemma add_small_suggestion :
  exists s1, add_suggestion 0 2 small_session = Ok s1.
Proof.
  destruct (add_suggestion 0 2 small_session) as [s1|e] eqn:H; [eauto|].
  vm_compute in H. discriminate.
Qed.

Lemma add_suggestion_blocks_repeat_witness :
  suggestions small_session !! 0 = Some 2 /\
  exists s1 : session,
    add_suggestion 0 2 small_session = Ok s1 /\
    forall rank' : Z, add_suggestion 0 rank' s1 = Ok s1.
Proof.
  split; [reflexivity|].
  destruct add_small_suggestion as [s1 Hs1].
  exists s1. split; [exact Hs1|].
  exact (proj1 (proj2 (add_suggestion_blocks_repeat 0 2 small_session s1 2
                         eq_refl song_c_not_ranked Hs1))).
Defined.

Lemma add_at_next_rank_witness :
  get_next_available_rank (ranking small_session) = Ok 2%Z /\
  exists s' : session,
    add_song 2 2 small_session = Ok s' /\ NoDup (ranks_of (ranking s')).
Proof.
  assert (get_next_available_rank (ranking small_session) = Ok 2%Z) as Hnext
    by by_computation.
  split; [exact Hnext|].
  destruct add_small_suggestion as [s' Hs'].
  exists s'. split; [exact Hs'|].
  refine (add_at_next_rank_keeps_ranks_distinct 2 2 small_session s'
            _ song_c_not_ranked Hnext _ _ Hs').
  - simpl. lia.
  - exists 2%Z. split; [lia|]. intros (e & He & Hr).
    apply elem_of_cons in He as [->|He]; [vm_compute in Hr; discriminate|].
    apply elem_of_cons in He as [->|He]; [vm_compute in Hr; discriminate|].
    inversion He.
  - apply (bool_decide_unpack _). by_computation.
Defined.

Lemma load_suggestions_witness :
  valid_locs (heap small_session) (ranked_songs small_session) /\
  ranking (load_suggestions sample_strptime_ms offline_sp sample_now small_session) =
    ranking small_session.
Proof.
  assert (valid_locs (heap small_session) (ranked_songs small_session)) as Hvalid.
  { repeat constructor. }
  split; [exact Hvalid|].
  exact (proj1 (load_suggestions_effect sample_strptime_ms offline_sp sample_now
                  small_session Hvalid)).
Defined.

Lemma display_song_keys_witness :
  old_entry !! "release_year" = None /\
  display_song old_entry VNone =
    display_song (<["release_year" := VStr "N/A"]> old_entry) VNone.
Proof.
  assert (old_entry !! "release_year" = None) as Hnone by by_computation.
  split; [exact Hnone|].
  exact (proj2 (proj2 (display_song_keys old_entry VNone)) Hnone).
Defined.

Lemma sample_session_reachable :
  reachable sample_strptime_ms
    (replay sample_strptime_ms sample_events (new_session None)).
Proof. apply reachable_replay, reach_start. Qed.

Lemma restart_restores_witness :
  reachable sample_strptime_ms
    (replay sample_strptime_ms sample_events (new_session None)) /\
  ranking (new_session
             (rankings_json
                (replay sample_strptime_ms sample_events (new_session None)))) =
  ranking (replay sample_strptime_ms sample_events (new_session None)).
Proof.
  split; [exact sample_session_reachable|].
  exact (proj2 (restart_restores_ranking sample_strptime_ms _
                  sample_session_reachable)).
Defined.

Lemma reachable_rows_display_witness :
  reachable sample_strptime_ms
    (replay sample_strptime_ms sample_events (new_session None)) /\
  Forall (fun e : song => ranked_entry e /\ exists html, display_row e = Ok html)
    (ranking (replay sample_strptime_ms sample_events (new_session None))).
Proof.
  split; [exact sample_session_reachable|].
  exact (proj1 (reachable_rows_display sample_strptime_ms _
                  sample_session_reachable)).
Defined.

Lemma handlers_never_raise_witness :
  reachable sample_strptime_ms
    (replay sample_strptime_ms sample_events (new_session None)) /\
  (exists s', edit_rank 1 4
                (replay sample_strptime_ms sample_events (new_session None)) = Ok s') /\
  (exists s', add_search_result sample_sp "africa" 1 2
                (replay sample_strptime_ms sample_events (new_session None)) = Ok s') /\
  add_search_result offline_sp "africa" 0 1 (new_session None) =
    Raise (ProviderError "HTTP 503") /\
  search_spotify offline_sp "africa" = Raise (ProviderError "HTTP 503").
Proof.
  split; [exact sample_session_reachable|].
  destruct (handlers_never_raise sample_strptime_ms _ sample_session_reachable)
    as (Hedit & _ & _ & Hadd & _).
  split; [exact (Hedit 1 4%Z)|].
  split; [exact (Hadd sample_sp "africa" 1 2%Z _ eq_refl)|].
  assert (add_search_result offline_sp "africa" 0 1 (new_session None) =
            Raise (ProviderError "HTTP 503")) as H by reflexivity.
  split; [exact H|].
  exact (proj2 (proj2 (proj2 (proj2
           (handlers_never_raise sample_strptime_ms (new_session None)
              (reach_start sample_strptime_ms))))) _ _ _ _ _ H).
Defined.

Lemma ranks_stay_in_bounds_witness :
  Forall event_in_bounds sample_events /\
  Forall rank_in_bounds
    (ranking (replay sample_strptime_ms sample_events (new_session None))).
Proof.
  assert (Forall event_in_bounds sample_events) as Hevs.
  { unfold sample_events.
    repeat (apply List.Forall_cons;
            [intros r Hr; simpl in Hr; try discriminate; injection Hr as <-; lia|]).
    apply List.Forall_nil. }
  split; [exact Hevs|].
  exact (ranks_stay_in_bounds sample_strptime_ms sample_events Hevs).
Defined.

Lemma next_rank_always_returns_witness :
  reachable sample_strptime_ms
    (replay sample_strptime_ms sample_events (new_session None)) /\
  exists r : Z,
    get_next_available_rank
      (ranking (replay sample_strptime_ms sample_events (new_session None))) = Ok r /\
    (1 <= r <= 2000)%Z.
Proof.
  split; [exact sample_session_reachable|].
  exact (next_rank_always_returns sample_strptime_ms _ sample_session_reachable).
Defined.

Example sample_session_next_rank :
  get_next_available_rank
    (ranking (replay sample_strptime_ms sample_events (new_session None))) = Ok 2%Z.
Proof. by_computation. Qed.

Example move_examples :
  move_to_position [1; 2; 3; 4; 5] 1 3 = Ok ([1; 3; 4; 2; 5], true) /\
  move_to_position [1; 2; 3; 4; 5] (-1) 0 = Ok ([5; 1; 2; 3; 4], true) /\
  move_to_position [1; 2; 3; 4; 5] 0 5 = Ok ([1; 2; 3; 4; 5], false).
Proof. repeat split; by_computation. Qed.
